(** * Luit/comments: the comment store of main.go, embedded and verified

    The program is one Go file: an HTTP handler that keeps comment threads in
    Redis.  The development follows the file top-down:

    - [Go]: the standard-library functions main.go calls (html.EscapeString,
      strconv.ParseBool, strconv.ParseInt, decimal formatting of int64);
    - [Redis]: the data types of the store, the seven commands main.go sends
      and the redigo reply converters it applies to their results;
    - [Prog]: programs as trees of effects (conn.Do, time.Now, time.Sleep,
      http.PostForm, log) with the unbounded [for] loop as a constructor,
      their step function, a fuelled interpreter and a logic of per-call
      command histories;
    - [Comments]: the functions of main.go;
    - [Pool]: concurrently running handler invocations, interleaved at the
      granularity of single effects;
    - [Spec]: the notions the specification speaks of (the all and approved
      index of a thread, the record of a comment, the invariants of the
      store), read off the store;
    - [Scenario]: concrete requests and worlds on which the definitions are
      run;
    - the theorems. *)

From Stdlib Require Import ZArith Ascii String DecimalString DecimalZ DecimalN DecimalPos
  FunctionalExtensionality.
From stdpp Require Import gmap strings list fin_maps sorting.

Local Open Scope string_scope.
Local Open Scope Z_scope.
Local Open Scope list_scope.

(** ** Go errors *)

Inductive numerr := ErrSyntax | ErrRange.

Inductive error :=
| ErrNil                         (* redis.ErrNil *)
| RedisError (msg : string)      (* redis.Error: an error reply of the server *)
| ConnError                      (* the connection failed, the command was not run *)
| NumError (fn : string) (e : numerr)   (* *strconv.NumError *)
| ErrorString (msg : string)     (* errors.New / fmt.Errorf *)
| HTTPError.                     (* http.PostForm or ioutil.ReadAll failed *)

#[global] Instance numerr_eq_dec : EqDecision numerr.
Proof. solve_decision. Defined.
#[global] Instance error_eq_dec : EqDecision error.
Proof. solve_decision. Defined.

(** The text of [err.Error()].  For a lost connection the text depends on the
    operating system; main.go never shows it to a client. *)
Definition Error (e : error) : string :=
  match e with
  | ErrNil => "redigo: nil returned"
  | RedisError msg => msg
  | ConnError => "connection failed"
  | NumError fn ErrSyntax => "strconv." +:+ fn +:+ ": invalid syntax"
  | NumError fn ErrRange => "strconv." +:+ fn +:+ ": value out of range"
  | ErrorString msg => msg
  | HTTPError => "http request failed"
  end.

(** ** Standard-library functions *)

Module Go.

(** html.EscapeString: the replacer of package html. *)
Definition escape_char (c : ascii) : string :=
  if decide (c = "&"%char) then "&amp;"
  else if decide (c = "'"%char) then "&#39;"
  else if decide (c = "<"%char) then "&lt;"
  else if decide (c = ">"%char) then "&gt;"
  else if decide (c = "034"%char) then "&#34;"
  else String c "".

Fixpoint EscapeString (s : string) : string :=
  match s with
  | EmptyString => ""
  | String c rest => escape_char c +:+ EscapeString rest
  end.

(** strconv.ParseBool *)
Definition ParseBool (s : string) : bool * option error :=
  if decide (s ∈ ["1"; "t"; "T"; "TRUE"; "true"; "True"]) then (true, None)
  else if decide (s ∈ ["0"; "f"; "F"; "FALSE"; "false"; "False"]) then (false, None)
  else (false, Some (NumError "ParseBool" ErrSyntax)).

(** strconv.ParseUint(s, 10, 64): digits only, at least one; a value that does
    not fit saturates with a range error. *)
Definition ParseUint (s : string) : Z * option error :=
  match NilZero.uint_of_string s with
  | None => (0, Some (NumError "ParseUint" ErrSyntax))
  | Some u =>
      let n := Z.of_N (N.of_uint u) in
      if 2 ^ 64 <=? n then (2 ^ 64 - 1, Some (NumError "ParseUint" ErrRange))
      else (n, None)
  end.

(** strconv.ParseInt(s, 10, 64) *)
Definition ParseInt (s : string) : Z * option error :=
  match s with
  | EmptyString => (0, Some (NumError "ParseInt" ErrSyntax))
  | String c rest =>
      let neg := bool_decide (c = "-"%char) in
      let s' := if decide (c = "+"%char) then rest
                else if decide (c = "-"%char) then rest else s in
      let '(un, err) := ParseUint s' in
      match err with
      | Some (NumError _ ErrRange) | None =>
          let cutoff := 2 ^ 63 in
          if negb neg && (cutoff <=? un) then (cutoff - 1, Some (NumError "ParseInt" ErrRange))
          else if neg && (cutoff <? un) then (- cutoff, Some (NumError "ParseInt" ErrRange))
          else (if neg then - un else un, None)
      | Some _ => (0, Some (NumError "ParseInt" ErrSyntax))
      end
  end.

(** The decimal text of an int64: what [%d] prints and what redigo sends for
    an int64 argument (strconv.FormatInt(n, 10)). *)
Definition FormatInt (n : Z) : string := NilZero.string_of_int (Z.to_int n).

End Go.

(** ** The Redis store and the redigo client *)

Module Redis.

(** What a key can hold.  A sorted set maps each member to its score; main.go
    only ever adds a comment id as both score and member. *)
Inductive value :=
| VString (s : string)
| VSet (members : gset string)
| VZSet (z : gmap string Z)
| VHash (h : gmap string string).

(** The commands main.go sends through [conn.Do].  [ZRANGEBYSCORE key off n]
    stands for [ZRANGEBYSCORE key -inf +inf LIMIT off n]. *)
Inductive command :=
| GET (key : string)
| SET (key val : string)
| SISMEMBER (key member : string)
| ZADD (key : string) (score : Z) (member : string)
| HMSET (key : string) (fields : list (string * string))
| HGETALL (key : string)
| ZRANGEBYSCORE (key : string) (offset count : nat).

#[local] Set Warnings "-register-all".
Inductive reply :=
| RNil
| RInt (n : Z)
| RBulk (s : string)
| RStatus (s : string)
| RArray (l : list reply).
#[local] Set Warnings "register-all".

(** The pair [(reply, err)] that [conn.Do] returns. *)
Inductive result :=
| Reply (r : reply)
| Fail (e : error).

Definition wrongtype : result :=
  Fail (RedisError "WRONGTYPE Operation against a key holding the wrong kind of value").

(** Order of a sorted set: by score, equal scores by member bytes. *)
Definition zle (a b : string * Z) : Prop :=
  a.2 < b.2 ∨ (a.2 = b.2 ∧ String.le a.1 b.1).

#[global] Instance zle_dec a b : Decision (zle a b).
Proof. unfold zle. apply _. Defined.

Definition zrange (z : gmap string Z) : list (string * Z) :=
  merge_sort zle (map_to_list z).

Definition zmembers (z : gmap string Z) (offset count : nat) : list string :=
  (take count (drop offset (zrange z))).*1.

Definition hash_set (h : gmap string string) (fields : list (string * string))
  : gmap string string :=
  foldl (fun acc fv => <[fv.1 := fv.2]> acc) h fields.

Definition flat (h : gmap string string) : list reply :=
  flat_map (fun fv => [RBulk fv.1; RBulk fv.2]) (map_to_list h).

(** The server's side of one command. *)
Definition exec (c : command) (s : gmap string value) : result * gmap string value :=
  match c with
  | GET k =>
      match s !! k with
      | None => (Reply RNil, s)
      | Some (VString v) => (Reply (RBulk v), s)
      | Some _ => (wrongtype, s)
      end
  | SET k v => (Reply (RStatus "OK"), <[k := VString v]> s)
  | SISMEMBER k m =>
      match s !! k with
      | None => (Reply (RInt 0), s)
      | Some (VSet ms) => (Reply (RInt (if decide (m ∈ ms) then 1 else 0)), s)
      | Some _ => (wrongtype, s)
      end
  | ZADD k score m =>
      match s !! k with
      | None => (Reply (RInt 1), <[k := VZSet {[m := score]}]> s)
      | Some (VZSet z) =>
          (Reply (RInt (if decide (is_Some (z !! m)) then 0 else 1)),
           <[k := VZSet (<[m := score]> z)]> s)
      | Some _ => (wrongtype, s)
      end
  | HMSET k fields =>
      match s !! k with
      | None => (Reply (RStatus "OK"), <[k := VHash (hash_set ∅ fields)]> s)
      | Some (VHash h) => (Reply (RStatus "OK"), <[k := VHash (hash_set h fields)]> s)
      | Some _ => (wrongtype, s)
      end
  | HGETALL k =>
      match s !! k with
      | None => (Reply (RArray []), s)
      | Some (VHash h) => (Reply (RArray (flat h)), s)
      | Some _ => (wrongtype, s)
      end
  | ZRANGEBYSCORE k offset count =>
      match s !! k with
      | None => (Reply (RArray []), s)
      | Some (VZSet z) => (Reply (RArray (RBulk <$> zmembers z offset count)), s)
      | Some _ => (wrongtype, s)
      end
  end.

(** redigo's reply helpers. *)
Definition unexpected (what : string) : error :=
  ErrorString ("redigo: unexpected type for " +:+ what).

Definition Bool (r : result) : bool * option error :=
  match r with
  | Fail e => (false, Some e)
  | Reply (RInt n) => (negb (n =? 0), None)
  | Reply (RBulk s) => Go.ParseBool s
  | Reply RNil => (false, Some ErrNil)
  | Reply _ => (false, Some (unexpected "Bool"))
  end.

Definition String (r : result) : string * option error :=
  match r with
  | Fail e => ("", Some e)
  | Reply (RBulk s) | Reply (RStatus s) => (s, None)
  | Reply RNil => ("", Some ErrNil)
  | Reply _ => ("", Some (unexpected "String"))
  end.

Definition Values (r : result) : list reply * option error :=
  match r with
  | Fail e => ([], Some e)
  | Reply (RArray l) => (l, None)
  | Reply RNil => ([], Some ErrNil)
  | Reply _ => ([], Some (unexpected "Values"))
  end.

Fixpoint strings_of (l : list reply) : option (list string) :=
  match l with
  | [] => Some []
  | RBulk s :: l' => cons s <$> strings_of l'
  | RNil :: l' => cons "" <$> strings_of l'
  | _ :: _ => None
  end.

Definition Strings (r : result) : list string * option error :=
  match r with
  | Fail e => ([], Some e)
  | Reply (RArray l) =>
      match strings_of l with
      | Some ss => (ss, None)
      | None => ([], Some (unexpected "Strings"))
      end
  | Reply RNil => ([], Some ErrNil)
  | Reply _ => ([], Some (unexpected "Strings"))
  end.

Fixpoint pairs_of (l : list reply) (m : gmap string string)
  : option (gmap string string) :=
  match l with
  | [] => Some m
  | RBulk k :: RBulk v :: l' => pairs_of l' (<[k := v]> m)
  | _ => None
  end.

Definition StringMap (r : result) : gmap string string * option error :=
  let '(values, err) := Values r in
  match err with
  | Some e => (∅, Some e)
  | None =>
      if Nat.odd (length values)
      then (∅, Some (ErrorString "redigo: StringMap expects even number of values result"))
      else match pairs_of values ∅ with
           | Some m => (m, None)
           | None => (∅, Some (ErrorString "redigo: ScanMap key not a bulk string value"))
           end
  end.

End Redis.

(** ** Programs *)

Module Prog.
Import Redis.

(** What the spam classifier's endpoint can answer to one form POST:
    [http.PostForm] fails, reading the body fails, or a body arrives. *)
Inductive outcome :=
| PostFailed
| ReadFailed
| Body (s : string).

Inductive logline :=
| Println_err (e : error)
| Println_hmset (ok : string)
| Printf_new (approved : bool) (host path : string) (id : Z).

(** One executed store command with what came back. *)
Definition ev : Type := command * result.

(** Everything outside the process.  [faults] and [akismet] are the oracles
    of the environment: the head of [faults] says whether the next [conn.Do]
    loses its connection (the command then does not reach the server), the
    head of [akismet] is the classifier's next answer. *)
Record world := World {
  store : gmap string value;
  now : Z;
  faults : list bool;
  akismet : list outcome;
  logs : list logline;
  trace : list ev;
  posted : list (string * gmap string (list string))
}.

Definition conn_Do (c : command) (w : world) : result * world :=
  match faults w with
  | true :: fs =>
      (Fail ConnError,
       World (store w) (now w) fs (akismet w) (logs w)
             (trace w ++ [(c, Fail ConnError)]) (posted w))
  | _ =>
      let '(r, s') := exec c (store w) in
      (r, World s' (now w) (tail (faults w)) (akismet w) (logs w)
                (trace w ++ [(c, r)]) (posted w))
  end.

(** A program is a tree of effects.  [Iter body i k] is Go's [for { ... }]:
    [body] runs from loop state [i] and either goes round again ([inl]) or
    leaves the loop with a value for [k] ([inr]). *)
Inductive prog (A : Type) : Type :=
| Ret (a : A)
| Do (c : command) (k : result → prog A)
| Now (k : Z → prog A)
| Sleep (k : prog A)
| PostForm (url : string) (data : gmap string (list string)) (k : outcome → prog A)
| Log (l : logline) (k : prog A)
| Iter (I B : Type) (body : I → prog (I + B)) (i : I) (k : B → prog A).

Arguments Ret {A}.
Arguments Do {A}.
Arguments Now {A}.
Arguments Sleep {A}.
Arguments PostForm {A}.
Arguments Log {A}.
Arguments Iter {A I B}.

Fixpoint bind {A B} (p : prog A) (f : A → prog B) : prog B :=
  match p with
  | Ret a => f a
  | Do c k => Do c (fun r => bind (k r) f)
  | Now k => Now (fun t => bind (k t) f)
  | Sleep k => Sleep (bind k f)
  | PostForm u d k => PostForm u d (fun o => bind (k o) f)
  | Log l k => Log l (bind k f)
  | Iter body i k => Iter body i (fun b => bind (k b) f)
  end.

(** Where a loop goes after one turn of its body. *)
Definition loop_next {A I B} (body : I → prog (I + B)) (k : B → prog A)
    (r : I + B) : prog A :=
  match r with
  | inl j => Iter body j k
  | inr b => k b
  end.

(** One step of one call: the effect at the head is performed on the world.
    The third component is the store command executed, if any.  A call that
    sleeps for a second finds the clock one second later; unfolding a loop is
    a step of its own. *)
Definition step {A} (p : prog A) (w : world) : prog A * world * option ev :=
  match p with
  | Ret a => (Ret a, w, None)
  | Do c k => let '(r, w') := conn_Do c w in (k r, w', Some (c, r))
  | Now k => (k (now w), w, None)
  | Sleep k =>
      (k, World (store w) (now w + 1) (faults w) (akismet w) (logs w)
                (trace w) (posted w), None)
  | PostForm u d k =>
      (k (hd PostFailed (akismet w)),
       World (store w) (now w) (faults w) (tail (akismet w)) (logs w)
             (trace w) (posted w ++ [(u, d)]), None)
  | Log l k =>
      (k, World (store w) (now w) (faults w) (akismet w) (logs w ++ [l])
                (trace w) (posted w), None)
  | Iter body i k => (bind (body i) (loop_next body k), w, None)
  end.

Definition is_ret {A} (p : prog A) : bool :=
  match p with Ret _ => true | _ => false end.

(** Running a call alone, for at most [fuel] steps. *)
Fixpoint run {A} (fuel : nat) (p : prog A) (w : world) : option (A * world) :=
  match p, fuel with
  | Ret a, _ => Some (a, w)
  | _, O => None
  | _, S n => let '(p', w', _) := step p w in run n p' w'
  end.

(** [returns p w a w']: run alone from [w], [p] returns [a] and leaves [w']. *)
Definition returns {A} (p : prog A) (w : world) (a : A) (w' : world) : Prop :=
  ∃ fuel, run fuel p w = Some (a, w').

(** [wp p Q w]: whatever [p] returns when run alone from [w] satisfies [Q]. *)
Definition wp {A} (p : prog A) (Q : A → world → Prop) (w : world) : Prop :=
  ∀ a w', returns p w a w' → Q a w'.

(** The effects as programs. *)
Definition Do_ (c : command) : prog result := Do c Ret.
Definition time_Now_Unix : prog Z := Now Ret.
Definition time_Sleep_Second : prog unit := Sleep (Ret tt).
Definition http_PostForm (url : string) (data : gmap string (list string))
  : prog outcome := PostForm url data Ret.
Definition log (l : logline) : prog unit := Log l (Ret tt).

(** A call "respects" [P] from history [h] when every command it can send,
    whatever the replies, satisfies [P] of the commands and replies before it,
    and every value it can return satisfies [Q].  Loops carry an invariant. *)
Fixpoint respects {A} (P : list ev → command → Prop) (p : prog A)
    (Q : list ev → A → Prop) (h : list ev) : Prop :=
  match p with
  | Ret a => Q h a
  | Do c k => P h c ∧ ∀ r, respects P (k r) Q (h ++ [(c, r)])
  | Now k => ∀ t, respects P (k t) Q h
  | Sleep k => respects P k Q h
  | PostForm u d k => ∀ o, respects P (k o) Q h
  | Log l k => respects P k Q h
  | Iter body i k =>
      ∃ Inv : _ → list ev → Prop,
        Inv i h ∧
        ∀ j h', Inv j h' →
          respects P (body j)
            (fun h'' r => match r with
                          | inl j' => Inv j' h''
                          | inr b => respects P (k b) Q h''
                          end) h'
  end.

End Prog.

Declare Scope prog_scope.
Delimit Scope prog_scope with prog.
Notation "x <- y ; z" := (Prog.bind y (fun x => z))
  (at level 20, y at level 100, z at level 200, only parsing) : prog_scope.
Notation "' x <- y ; z" := (Prog.bind y (fun x => z))
  (at level 20, x pattern, y at level 100, z at level 200, only parsing) : prog_scope.
Notation "y ;; z" := (Prog.bind y (fun _ => z))
  (at level 100, z at level 200, only parsing, right associativity) : prog_scope.

(** ** main.go *)

Module comment.
(** [type comment struct]: the part of a comment sent through the API. *)
Record t := mk {
  ID : string;
  Author : string;
  Content : string
}.
End comment.

Module Comments.
Import Redis Prog.
Local Open Scope prog_scope.

(** The key schema: [fmt.Sprintf] of the five format constants. *)
Definition keyAutoEnable : string := "{luit.eu/comments}:auto_enable".
Definition keyEnabled (host path : string) : string :=
  "{luit.eu/comments://" +:+ host +:+ path +:+ "}:enabled".
Definition keyAll (host path : string) : string :=
  "{luit.eu/comments://" +:+ host +:+ path +:+ "}:all".
Definition keyApproved (host path : string) : string :=
  "{luit.eu/comments://" +:+ host +:+ path +:+ "}:approved".
Definition keyComment (host path : string) (id : Z) : string :=
  "{luit.eu/comments://" +:+ host +:+ path +:+ "}:comment:" +:+ Go.FormatInt id.

Definition akismetCheckURL (key : string) : string :=
  "https://" +:+ key +:+ ".rest.akismet.com/1.1/comment-check".

(** An [*http.Request] after [r.ParseForm()]: [Form] lists the parsed form
    values (the first value of a key is the one [FormValue] returns), and
    [ParseForm] is the error [r.ParseForm()] returned, if any. *)
Record Request := {
  Method : string;
  ParseForm : option error;
  Form : list (string * string);
  Header : list (string * string);
  RemoteAddr : string
}.

Definition assoc (key : string) (l : list (string * string)) : string :=
  match list_find (fun kv => kv.1 = key) l with
  | Some (_, kv) => kv.2
  | None => ""
  end.

Definition FormValue (r : Request) (key : string) : string := assoc key (Form r).
Definition Header_Get (r : Request) (key : string) : string := assoc key (Header r).

(** The fields of [*url.URL] that main.go reads. *)
Record URL := { Host : string; Path : string }.

(** What the handler writes to its [http.ResponseWriter], in order. *)
Inductive action :=
| http_Error (msg : string) (code : Z)
| Header_Set (key val : string)
| Encode (comments : option (list comment.t))
| http_Redirect (url : string) (code : Z).

Definition StatusFound : Z := 302.
Definition StatusBadRequest : Z := 400.
Definition StatusInternalServerError : Z := 500.

Record commentSubmitRequest := {
  Permalink : string;
  host : string;
  path : string;
  UserIP : string;
  UserAgent : string;
  Referrer : string;
  Author : string;
  AuthorEmail : string;
  AuthorURL : string;
  Content : string
}.

(** [redis.Args{}.AddFlat(req)]: the exported fields under their redis tags,
    in declaration order; [host] and [path] are unexported and left out. *)
Definition AddFlat (req : commentSubmitRequest) : list (string * string) :=
  [("permalink", Permalink req);
   ("user_ip", UserIP req);
   ("user_agent", UserAgent req);
   ("referrer", Referrer req);
   ("comment_author", Author req);
   ("comment_author_email", AuthorEmail req);
   ("comment_author_url", AuthorURL req);
   ("comment_content", Content req)].

(** [redis.ScanStruct(vals, &c)] for [c] a [comment]: pairs of field name and
    value; names without a field of that tag are skipped ([ID] is tagged "-"). *)
Fixpoint scan_pairs (src : list reply) (c : comment.t) : comment.t * option error :=
  match src with
  | name :: s :: rest =>
      match s, name with
      | RNil, _ => scan_pairs rest c
      | _, RBulk n =>
          if decide (n = "comment_author") then
            match s with
            | RBulk v => scan_pairs rest (comment.mk (comment.ID c) v (comment.Content c))
            | _ => (c, Some (ErrorString "redigo.ScanStruct: cannot assign field comment_author"))
            end
          else if decide (n = "comment_content") then
            match s with
            | RBulk v => scan_pairs rest (comment.mk (comment.ID c) (comment.Author c) v)
            | _ => (c, Some (ErrorString "redigo.ScanStruct: cannot assign field comment_content"))
            end
          else scan_pairs rest c
      | _, _ => (c, Some (ErrorString "redigo.ScanStruct: key not a bulk string value"))
      end
  | _ => (c, None)
  end.

Definition ScanStruct (src : list reply) (c : comment.t) : comment.t * option error :=
  if Nat.odd (length src)
  then (c, Some (ErrorString "redigo.ScanStruct: number of values not a multiple of 2"))
  else scan_pairs src c.

(** [url.Values.Add] *)
Definition Values_Add (data : gmap string (list string)) (key value : string)
  : gmap string (list string) :=
  <[key := default [] (data !! key) ++ [value]]> data.

(** What the handler has written to [w] after [r.ParseForm()]. *)
Definition ParseForm_written (r : Request) : list action :=
  match ParseForm r with
  | Some _ => [http_Error "unable to parse form" StatusBadRequest]
  | None => []
  end.

Inductive job :=
| Serve (r : Request)
| Allocate (req : commentSubmitRequest).

Section main.

(** [url.Parse] and the address resolution behind [net.ResolveTCPAddr] (with
    [addr.IP.String()]) belong to Go's library and are taken as given;
    [akismetKey] is the package variable read from the environment. *)
Variable url_Parse : string → URL + error.
Variable net_ResolveTCPAddr : string → string + error.
Variable akismetKey : string.

Definition cleanCommentSubmitRequest (r : Request) : commentSubmitRequest + error :=
  let rawURL := FormValue r "url" in
  match url_Parse rawURL with
  | inr err => inr err
  | inl u =>
      if decide (Host u = "") then inr (ErrorString "bad url value")
      else if decide (FormValue r "comment_author" = "")
      then inr (ErrorString "bad comment_author value")
      else if decide (FormValue r "comment_content" = "")
      then inr (ErrorString "bad comment_content value")
      else
        let userIP := Header_Get r "X-Forwarded-For" in
        let resolved :=
          if decide (userIP = "") then net_ResolveTCPAddr (RemoteAddr r)
          else inl userIP in
        match resolved with
        | inr err => inr err
        | inl userIP =>
            inl {| Permalink := rawURL;
                   host := Host u;
                   path := Path u;
                   UserIP := userIP;
                   UserAgent := Header_Get r "User-Agent";
                   Referrer := Header_Get r "Referer";
                   Author := FormValue r "comment_author";
                   AuthorEmail := FormValue r "comment_author_email";
                   AuthorURL := FormValue r "comment_author_url";
                   Content := FormValue r "comment_content" |}
        end
  end.

(** The body of [for _, id := range ids] in [getComments]. *)
Fixpoint getComments_range (host path : string) (ids : list string)
    (comments : list comment.t) : prog (option (list comment.t) * option error) :=
  match ids with
  | [] => Ret (Some comments, None)
  | id :: ids' =>
      let intid := (Go.ParseInt id).1 in
      res <- Do_ (HGETALL (keyComment host path intid));
      let '(vals, err) := Values res in
      match err with
      | Some e => Ret (None, Some e)
      | None =>
          let '(c, err) := ScanStruct vals (comment.mk "" "" "") in
          match err with
          | Some e => Ret (None, Some e)
          | None =>
              let c := comment.mk id (Go.EscapeString (comment.Author c))
                                  (Go.EscapeString (comment.Content c)) in
              getComments_range host path ids' (comments ++ [c])
          end
      end
  end.

Definition getComments (host path : string)
  : prog (option (list comment.t) * option error) :=
  res <- Do_ (ZRANGEBYSCORE (keyApproved host path) 0 10);
  let '(ids, err) := Strings res in
  match err with
  | Some e => Ret (None, Some e)
  | None => getComments_range host path ids []
  end.

Definition autoEnabled (host path : string) : prog (bool * option error) :=
  res <- Do_ (GET (keyEnabled host path));
  let '(en, err) := Bool res in
  if decide (err = Some ErrNil) then
    res <- Do_ (SISMEMBER keyAutoEnable host);
    let '(en, err) := Bool res in
    match err with
    | Some _ => Ret (en, err)
    | None =>
        (if en then _ <- Do_ (SET (keyEnabled host path) "true"); Ret tt
         else Ret tt);;
        Ret (en, err)
    end
  else Ret (en, err).

(** How the [for] loop of [saveComment] is left: by [return] with the
    function's results, or by [break] with the id that was added. *)
Inductive save_exit :=
| Return (id : Z) (err : option error)
| Break (id : Z).

Definition saveComment_attempt (req : commentSubmitRequest) (_ : unit)
  : prog (unit + save_exit) :=
  id <- time_Now_Unix;
  res <- Do_ (ZADD (keyAll (host req) (path req)) id (Go.FormatInt id));
  let '(added, err) := Bool res in
  match err with
  | Some e => log (Println_err e);; Ret (inr (Return id err))
  | None =>
      if added then Ret (inr (Break id))
      else time_Sleep_Second;; Ret (inl tt)
  end.

Definition saveComment_store (req : commentSubmitRequest) (ex : save_exit)
  : prog (Z * option error) :=
  match ex with
  | Return id err => Ret (id, err)
  | Break id =>
      res <- Do_ (HMSET (keyComment (host req) (path req) id) (AddFlat req));
      let '(ok, err) := String res in
      match err with
      | Some _ => Ret (id, err)
      | None =>
          (if decide (ok = "OK") then Ret tt else log (Println_hmset ok));;
          Ret (id, err)
      end
  end.

(** The [for] loop of [saveComment], then the rest of the function. *)
Definition saveComment_loop (req : commentSubmitRequest) : prog save_exit :=
  Iter (saveComment_attempt req) tt Ret.

Definition saveComment (req : commentSubmitRequest) : prog (Z * option error) :=
  ex <- saveComment_loop req;
  saveComment_store req ex.

Definition autoApproveComment (host path : string) (id : Z)
  : prog (bool * option error) :=
  if decide (akismetKey = "") then Ret (false, None)
  else
    res <- Do_ (HGETALL (keyComment host path id));
    let '(values, err) := StringMap res in
    match err with
    | Some e => Ret (false, Some e)
    | None =>
        let data :=
          map_fold (fun key value data => Values_Add data key value)
                   {["blog" := ["https://luit.eu/"]]} values in
        out <- http_PostForm (akismetCheckURL akismetKey) data;
        match out with
        | PostFailed | ReadFailed => Ret (false, Some HTTPError)
        | Body body =>
            let '(isSpam, err) := Go.ParseBool body in
            match err with
            | Some _ =>
                Ret (false, Some (ErrorString
                       ("unexpected return value from akismet: " +:+ body)))
            | None =>
                if negb isSpam then
                  res <- Do_ (ZADD (keyApproved host path) id (Go.FormatInt id));
                  let '(added, err) := Bool res in
                  match err with
                  | Some e => Ret (false, Some e)
                  | None => Ret (added, None)
                  end
                else Ret (false, None)
            end
        end
    end.

(** [commentHandler]; the result is what was written to [w].  A failed
    [r.ParseForm()] writes its error and the handler carries on. *)
Definition commentHandler (r : Request) : prog (list action) :=
  let w := ParseForm_written r in
  if decide (Method r = "GET") then
    let rawURL := FormValue r "url" in
    match url_Parse rawURL with
    | inr _ => Ret (w ++ [http_Error "bad URL" StatusBadRequest])
    | inl u =>
        '(comments, err) <- getComments (Host u) (Path u);
        match err with
        | Some _ => Ret (w ++ [http_Error "backend error" StatusInternalServerError])
        | None =>
            Ret (w ++ [Header_Set "Content-Type" "application/json"; Encode comments])
        end
    end
  else if decide (Method r = "POST") then
    match cleanCommentSubmitRequest r with
    | inr err => Ret (w ++ [http_Error (Error err) StatusBadRequest])
    | inl req =>
        '(en, err) <- autoEnabled (host req) (path req);
        match err with
        | Some e =>
            log (Println_err e);;
            Ret (w ++ [http_Error "backend error" StatusInternalServerError])
        | None =>
            if negb en then Ret (w ++ [http_Error "comments not enabled" StatusBadRequest])
            else
              '(id, err) <- saveComment req;
              match err with
              | Some e =>
                  log (Println_err e);;
                  Ret (w ++ [http_Error "backend error" StatusInternalServerError])
              | None =>
                  '(approved, err) <- autoApproveComment (host req) (path req) id;
                  match err with
                  | Some e => log (Println_err e)
                  | None => Ret tt
                  end;;
                  log (Printf_new approved (host req) (path req) id);;
                  Ret (w ++ [http_Redirect (Permalink req) StatusFound])
              end
        end
    end
  else Ret w.

(** What a pool of calls can be asked to do: serve a request, or (to see what
    the allocator hands back while requests are served) run [saveComment]
    on its own. *)
Definition start (j : job) : prog (list action + Z * option error) :=
  match j with
  | Serve r => resp <- commentHandler r; Ret (inl resp)
  | Allocate req => res <- saveComment req; Ret (inr res)
  end.

End main.

End Comments.

(** ** Concurrent calls *)

Module Pool.
Import Redis Prog.

Section pool.

(** [call x] is the program a request [x] starts; every request is served by
    its own call, and calls share nothing but the world. *)
Context {X A : Type} (call : X → prog A).

(** A running call: the request it serves, what is left of its program and
    the store commands it has executed so far. *)
Record thread := Thread {
  arg : X;
  code : prog A;
  hist : list ev
}.

Record state := State {
  pool : list thread;
  env : world
}.

(** What can happen next: call number [i] performs the effect at its head,
    the wall clock comes to read [t] (time passes between two steps, sleeps
    of several calls overlap, the clock is adjusted), or a new request
    arrives. *)
Inductive move :=
| Run (i : nat)
| Tick (t : Z)
| Spawn (x : X).

Definition option_ev (o : option ev) : list ev :=
  match o with Some e => [e] | None => [] end.

Definition sys_step (st : state) (m : move) : state :=
  match m with
  | Run i =>
      match pool st !! i with
      | None => st
      | Some t =>
          let '(p', w', oe) := step (code t) (env st) in
          State (<[i := Thread (arg t) p' (hist t ++ option_ev oe)]> (pool st)) w'
      end
  | Tick t =>
      let w := env st in
      State (pool st)
            (World (store w) t (faults w) (akismet w) (logs w)
                   (trace w) (posted w))
  | Spawn x => State (pool st ++ [Thread x (call x) []]) (env st)
  end.

Definition sys_run (st : state) (ms : list move) : state := foldl sys_step st ms.

(** The states of a server that started with no call running. *)
Definition reachable (w0 : world) (st : state) : Prop :=
  ∃ ms, sys_run (State [] w0) ms = st.

End pool.

Arguments thread : clear implicits.
Arguments state : clear implicits.
Arguments move : clear implicits.

End Pool.

(** ** Predicates of the specification *)

Module Spec.
Import Redis Prog Comments.

(** The members of the sorted set at [key]; no members when the key is absent
    or holds something else. *)
Definition zset_at (s : gmap string value) (key : string) : gmap string Z :=
  match s !! key with
  | Some (VZSet z) => z
  | _ => ∅
  end.

Definition AllIndex (s : gmap string value) (host path : string) : gset string :=
  dom (zset_at s (keyAll host path)).

Definition ApprovedIndex (s : gmap string value) (host path : string) : gset string :=
  dom (zset_at s (keyApproved host path)).

(** The comment record stored at [(thread, id)], if any. *)
Definition record_at (s : gmap string value) (host path : string) (id : Z)
  : option (gmap string string) :=
  match s !! keyComment host path id with
  | Some (VHash h) => Some h
  | _ => None
  end.

(** The invariant of section 3: approved ids are ids of the thread. *)
Definition approved_subset (s : gmap string value) : Prop :=
  ∀ host path, ApprovedIndex s host path ⊆ AllIndex s host path.

(** A sorted set as main.go writes it: every member is the decimal text of
    its score. *)
Definition zset_wf (z : gmap string Z) : Prop :=
  ∀ m score, z !! m = Some score → m = Go.FormatInt score.

Definition scores_wf (s : gmap string value) : Prop :=
  ∀ key, zset_wf (zset_at s key).

(** A reply that [redis.Bool] reads as [true] without error. *)
Definition added (r : result) : Prop := Bool r = (true, None).

(** The discipline every call of main.go keeps, whatever the store answers:
    [SET] only writes enablement flags, a member added to a sorted set is the
    decimal text of its score, and an id is added to an approved index only
    after the same call has seen it newly added to the all index of the same
    thread. *)
Definition allowed (h : list ev) (c : command) : Prop :=
  match c with
  | SET k _ => ∃ host path, k = keyEnabled host path
  | ZADD k score m =>
      m = Go.FormatInt score ∧
      ((∃ host path, k = keyAll host path) ∨
       (∃ host path r, k = keyApproved host path ∧
          (ZADD (keyAll host path) score m, r) ∈ h ∧ added r))
  | _ => True
  end.

(** The last [n] bytes of a string, last byte first. *)
Definition ending (n : nat) (s : string) : list ascii :=
  take n (rev (list_ascii_of_string s)).

Definition digits : list ascii :=
  ["0"; "1"; "2"; "3"; "4"; "5"; "6"; "7"; "8"; "9"]%char.

(** A thread key: the common shape of the four per-thread formats. *)
Definition tkey (t suffix : string) : string :=
  "{luit.eu/comments://" +:+ t +:+ suffix.

(** A postcondition that asks nothing. *)
Definition anything {A} : list ev → A → Prop := fun _ _ => True.

(** What [saveComment] owes its caller: an id comes back without error only
    after the call's own [ZADD] of that id on the thread's all index was
    answered "added". *)
Definition save_post (req : commentSubmitRequest) (h : list ev)
    (res : Z * option error) : Prop :=
  res.2 = None →
  ∃ r, (ZADD (keyAll (host req) (path req)) res.1 (Go.FormatInt res.1), r) ∈ h
       ∧ added r.

(** What a call of the pool owes when it returns: an allocator call owes
    [save_post], a served request nothing. *)
Definition start_post (j : job) (h : list ev)
    (a : list action + Z * option error) : Prop :=
  match j, a with
  | Allocate req, inr res => save_post req h res
  | _, _ => True
  end.

Section pool_predicates.
Context {X A : Type} (Q : X → list ev → A → Prop) (w0 : world).
Implicit Types (st : Pool.state X A).

(** Command number [a] of call [i] is [e]. *)
Definition ev_at st (i a : nat) (e : ev) : Prop :=
  ∃ t, Pool.pool st !! i = Some t ∧ Pool.hist t !! a = Some e.

Definition threads_respect st : Prop :=
  ∀ i t, Pool.pool st !! i = Some t →
         respects allowed (Pool.code t) (Q (Pool.arg t)) (Pool.hist t).

(** Every id a call has seen added to an all index is in that index. *)
Definition adds_recorded st : Prop :=
  ∀ i a host path score m r,
    ev_at st i a (ZADD (keyAll host path) score m, r) → added r →
    m ∈ AllIndex (store (Pool.env st)) host path.

(** No id was seen added to the same all index twice, by any two calls. *)
Definition adds_unique st : Prop :=
  ∀ i a j b host path score score' m r r',
    ev_at st i a (ZADD (keyAll host path) score m, r) → added r →
    ev_at st j b (ZADD (keyAll host path) score' m, r') → added r' →
    i = j ∧ a = b.

(** What holds of every state of a pool started from the world [w0]. *)
Definition pool_inv st : Prop :=
  threads_respect st ∧ adds_recorded st ∧ adds_unique st ∧
  (approved_subset (store w0) → approved_subset (store (Pool.env st))) ∧
  (scores_wf (store w0) → scores_wf (store (Pool.env st))).

End pool_predicates.

Definition field (h : gmap string string) (name : string) : string :=
  default "" (h !! name).

Definition entry (s : gmap string value) (host path id : string) : comment.t :=
  let h := default ∅ (record_at s host path (Go.ParseInt id).1) in
  comment.mk id (Go.EscapeString (field h "comment_author"))
                (Go.EscapeString (field h "comment_content")).

(** What [getComments] can return: the expected listing and no error, or no
    listing (a nil slice) and an error. *)
Definition listing_of (expected : list comment.t)
    (res : option (list comment.t) * option error) : Prop :=
  match res with
  | (Some cs, None) => cs = expected
  | (None, Some _) => True
  | _ => False
  end.

Definition assign (c : comment.t) (fv : string * string) : comment.t :=
  if decide (fv.1 = "comment_author") then comment.mk (comment.ID c) fv.2 (comment.Content c)
  else if decide (fv.1 = "comment_content") then comment.mk (comment.ID c) (comment.Author c) fv.2
  else c.

Definition bulk_pair (fv : string * string) : list reply := [RBulk fv.1; RBulk fv.2].

Definition no_faults (n : nat) (w : world) : Prop :=
  ∀ b, b ∈ take n (faults w) → b = false.

Definition holds_hash (s : gmap string value) (key : string) : Prop :=
  s !! key = None ∨ ∃ h, s !! key = Some (VHash h).

Definition holds_zset (s : gmap string value) (key : string) : Prop :=
  s !! key = None ∨ ∃ z, s !! key = Some (VZSet z).

(** What the [for] loop of [saveComment] has done when it is left. *)
Definition loop_post (req : commentSubmitRequest) (w : world) (ex : save_exit)
    (w1 : world) : Prop :=
  now w <= now w1 ∧
  (∀ t, now w <= t < now w1 →
        Go.FormatInt t ∈ AllIndex (store w) (host req) (path req)) ∧
  (∀ k, k ≠ keyAll (host req) (path req) → store w1 !! k = store w !! k) ∧
  match ex with
  | Break id =>
      id = now w1 ∧
      (Go.FormatInt id ∉ AllIndex (store w) (host req) (path req)) ∧
      AllIndex (store w1) (host req) (path req)
        = AllIndex (store w) (host req) (path req) ∪ {[Go.FormatInt id]}
  | Return id err =>
      id = now w1 ∧ err ≠ None ∧
      AllIndex (store w1) (host req) (path req) = AllIndex (store w) (host req) (path req)
  end.

(** What a finished [saveComment] has done. *)
Definition save_result (req : commentSubmitRequest) (w : world)
    (res : Z * option error) (w2 : world) : Prop :=
  now w <= res.1 ∧ res.1 = now w2 ∧
  (∀ t, now w <= t < res.1 →
        Go.FormatInt t ∈ AllIndex (store w) (host req) (path req)) ∧
  (∀ k, k ≠ keyAll (host req) (path req) →
        k ≠ keyComment (host req) (path req) res.1 → store w2 !! k = store w !! k) ∧
  AllIndex (store w) (host req) (path req) ⊆ AllIndex (store w2) (host req) (path req) ∧
  (res.2 = None →
     (Go.FormatInt res.1 ∉ AllIndex (store w) (host req) (path req)) ∧
     AllIndex (store w2) (host req) (path req)
       = AllIndex (store w) (host req) (path req) ∪ {[Go.FormatInt res.1]} ∧
     ∃ old, record_at (store w2) (host req) (path req) res.1
            = Some (hash_set old (AddFlat req))).

(** What a finished [autoApproveComment] has done. *)
Definition approve_result (host path : string) (id : Z) (w : world)
    (res : bool * option error) (w3 : world) : Prop :=
  (∀ k, k ≠ keyApproved host path → store w3 !! k = store w !! k) ∧
  ApprovedIndex (store w) host path ⊆ ApprovedIndex (store w3) host path ∧
  ApprovedIndex (store w3) host path
    ⊆ ApprovedIndex (store w) host path ∪ {[Go.FormatInt id]} ∧
  (res.2 ≠ None → res.1 = false ∧ store w3 = store w) ∧
  (res.1 = true → res.2 = None ∧ Go.FormatInt id ∈ ApprovedIndex (store w3) host path).

End Spec.

(** ** A scenario to run *)

Module Scenario.
Import Redis Prog Comments.

(** Stand-ins for the two library calls, right on the URLs and addresses used
    below: an absolute URL [scheme://host/path] without port, query or
    fragment, or a bare path (no host); an address [ip:port]. *)
Definition plain_Parse (rawURL : string) : URL + error :=
  match index 0 "://" rawURL with
  | Some i =>
      let rest := substring (i + 3) (String.length rawURL - (i + 3)) rawURL in
      match index 0 "/" rest with
      | Some j =>
          inl {| Host := substring 0 j rest;
                 Path := substring j (String.length rest - j) rest |}
      | None => inl {| Host := rest; Path := "" |}
      end
  | None => inl {| Host := ""; Path := rawURL |}
  end.

Definition plain_Resolve (addr : string) : string + error :=
  match index 0 ":" addr with
  | Some i => inl (substring 0 i addr)
  | None => inr (ErrorString "missing port in address")
  end.

Definition handler : Request → prog (list action) :=
  commentHandler plain_Parse plain_Resolve "secret".

(** The scenario of the specification: [example.com] is auto-enabled and a
    comment is posted to [https://example.com/post]. *)
Definition post : Request :=
  {| Method := "POST"; ParseForm := None;
     Form := [("url", "https://example.com/post"); ("comment_author", "a");
              ("comment_content", "<b>hi</b>")];
     Header := []; RemoteAddr := "192.0.2.7:5000" |}.

Definition get (url : string) : Request :=
  {| Method := "GET"; ParseForm := None; Form := [("url", url)];
     Header := []; RemoteAddr := "192.0.2.7:5000" |}.

Definition req : commentSubmitRequest :=
  {| Permalink := "https://example.com/post"; host := "example.com"; path := "/post";
     UserIP := "192.0.2.7"; UserAgent := ""; Referrer := "";
     Author := "a"; AuthorEmail := ""; AuthorURL := ""; Content := "<b>hi</b>" |}.

(** A store that only holds the auto-enable set; the classifier will answer
    "false" (not spam) once. *)
Definition world0 : world :=
  World {[ keyAutoEnable := VSet {[ "example.com" ]} ]} 1700000000 []
        [Body "false"] [] [] [].

(** The world [fuel] steps of [p] lead to from [w]. *)
Definition after {A} (fuel : nat) (p : prog A) (w : world) : world :=
  match run fuel p w with
  | Some (_, w') => w'
  | None => w
  end.

(** The worlds the scenario goes through: after [saveComment], after
    [autoApproveComment], after a later [getComments]. *)
Definition saved : world :=
  after 5 (saveComment req) (after 3 (autoEnabled "example.com" "/post") world0).
Definition approved : world :=
  after 4 (autoApproveComment "secret" "example.com" "/post" 1700000000) saved.

(** The same, with a classifier that answers neither "true" nor "false". *)
Definition bad_classifier : world :=
  World {[ keyAutoEnable := VSet {[ "example.com" ]} ]} 1700000000 []
        [Body "maybe"] [] [] [].

(** The worlds the scenario with the bad classifier goes through: after the
    enablement check, after [saveComment], after [autoApproveComment]. *)
Definition bad_enabled : world :=
  after 3 (autoEnabled "example.com" "/post") bad_classifier.
Definition bad_saved : world := after 5 (saveComment req) bad_enabled.
Definition bad_classified : world :=
  after 3 (autoApproveComment "secret" "example.com" "/post" 1700000000) bad_saved.

(** A connection that fails on the fifth command, the [HMSET] of the record,
    and the worlds before [saveComment] and after its loop. *)
Definition write_fails : world :=
  World {[ keyAutoEnable := VSet {[ "example.com" ]} ]} 1700000000
        [false; false; false; false; true] [Body "false"] [] [] [].
Definition write_fails_enabled : world :=
  after 3 (autoEnabled "example.com" "/post") write_fails.
Definition write_fails_added : world :=
  after 3 (saveComment_loop req) write_fails_enabled.

(** An approved index that names comment 5 of the thread while no record of
    it is stored. *)
Definition orphan : world :=
  World {[ keyApproved "example.com" "/post" := VZSet {[ "5" := 5 ]} ]}
        1700000000 [] [] [] [] [].

(** Two approved comments of one thread. *)
Definition two_approved : world :=
  World {[ keyApproved "example.com" "/post" :=
             VZSet {[ "1700000007" := 1700000007; "1700000005" := 1700000005 ]};
           keyComment "example.com" "/post" 1700000007 :=
             VHash {[ "comment_author" := "b"; "comment_content" := "second" ]};
           keyComment "example.com" "/post" 1700000005 :=
             VHash {[ "comment_author" := "a"; "comment_content" := "first" ]} ]}
        1700000100 [] [] [] [] [].

End Scenario.

(** * Theorems *)

Import Redis Prog Comments Spec Pool.
#[local] Set Warnings "-clear-no-such-hyp".

Example EscapeString_bold : Go.EscapeString "<b>hi</b>" = "&lt;b&gt;hi&lt;/b&gt;".
Proof. reflexivity. Qed.

Example ParseInt_leading_zero : Go.ParseInt "007" = (7, None).
Proof. reflexivity. Qed.

Example ParseInt_junk : Go.ParseInt "abc" = (0, Some (NumError "ParseInt" ErrSyntax)).
Proof. reflexivity. Qed.

Example FormatInt_neg : Go.FormatInt (-120) = "-120".
Proof. reflexivity. Qed.

Example Scenario_clean :
  cleanCommentSubmitRequest Scenario.plain_Parse Scenario.plain_Resolve Scenario.post
  = inl Scenario.req.
Proof. reflexivity. Qed.

Example Scenario_no_host : Scenario.plain_Parse "/post" = inl {| Host := ""; Path := "/post" |}.
Proof. reflexivity. Qed.

(** *** Strings as lists of bytes *)

Lemma append_cons x (a b : string) : String.String x a +:+ b = String.String x (a +:+ b).
Proof. reflexivity. Qed.

Lemma list_of_append (a b : string) :
  list_ascii_of_string (a +:+ b) = list_ascii_of_string a ++ list_ascii_of_string b.
Proof. induction a as [|c a IH]; [done|]. rewrite append_cons. simpl. by rewrite IH. Qed.

Lemma list_of_inj (a b : string) :
  list_ascii_of_string a = list_ascii_of_string b → a = b.
Proof.
  intros H. rewrite <- (string_of_list_ascii_of_string a), <- (string_of_list_ascii_of_string b).
  by rewrite H.
Qed.

Lemma append_assoc (a b c : string) : (a +:+ b) +:+ c = a +:+ (b +:+ c).
Proof. induction a as [|x a IH]; [done|]. rewrite !append_cons. by rewrite IH. Qed.

Lemma append_inv_tail (a b s : string) : a +:+ s = b +:+ s → a = b.
Proof.
  intros H. apply list_of_inj. apply (f_equal list_ascii_of_string) in H.
  rewrite !list_of_append in H. by apply app_inv_tail in H.
Qed.


Lemma ending_append n (a s : string) :
  (n <= String.length s)%nat → ending n (a +:+ s) = ending n s.
Proof.
  intros Hn. unfold ending. rewrite list_of_append, rev_app_distr.
  rewrite take_app_le; [done|]. rewrite length_rev.
  clear -Hn. revert n Hn. induction s; simpl; intros; [lia|].
  destruct n; simpl in *; [lia|]. specialize (IHs n). lia.
Qed.

Lemma ending_append' n (a s : string) l :
  ending n s = l → length l = n → ending n (a +:+ s) = l.
Proof.
  unfold ending. intros <- Hlen. rewrite list_of_append, rev_app_distr.
  rewrite take_app_le; [done|]. rewrite length_take in Hlen. lia.
Qed.

(** *** Decimal text *)


Lemma uint_nil_or (u : Decimal.uint) : u = Decimal.Nil ∨ u ≠ Decimal.Nil.
Proof. destruct u; auto. Qed.

Lemma uint_ending (u : Decimal.uint) :
  u ≠ Decimal.Nil → ∃ c, In c digits ∧ ending 1 (NilEmpty.string_of_uint u) = [c].
Proof.
  induction u as [|u IH|u IH|u IH|u IH|u IH|u IH|u IH|u IH|u IH|u IH]; [done|..];
    intros _; (destruct (uint_nil_or u) as [->|Hu];
      [eexists; split; [|reflexivity]; simpl; tauto
      |destruct (IH Hu) as (c & Hc & He); exists c; split; [done|];
       simpl NilEmpty.string_of_uint;
       match goal with |- ending 1 (String.String ?d ?s) = _ =>
         change (String.String d s) with (String.String d "" +:+ s) end;
       by apply ending_append']).
Qed.

Lemma string_of_uint_nonnil (u : Decimal.uint) :
  u ≠ Decimal.Nil → NilZero.string_of_uint u = NilEmpty.string_of_uint u.
Proof. by destruct u. Qed.

Lemma FormatInt_ending (z : Z) :
  ∃ c, In c digits ∧ ending 1 (Go.FormatInt z) = [c].
Proof.
  unfold Go.FormatInt. destruct z as [|p|p]; simpl.
  - exists "0"%char. split; [simpl; tauto | done].
  - rewrite string_of_uint_nonnil by apply Unsigned.to_uint_nonnil.
    apply uint_ending, Unsigned.to_uint_nonnil.
  - rewrite string_of_uint_nonnil by apply Unsigned.to_uint_nonnil.
    destruct (uint_ending (Pos.to_uint p)) as (c & Hc & He);
      [apply Unsigned.to_uint_nonnil|].
    exists c. split; [done|].
    change (String.String "-" ?s) with (String.String "-" "" +:+ s).
    by apply ending_append'.
Qed.




Lemma FormatInt_inj (a b : Z) : Go.FormatInt a = Go.FormatInt b → a = b.
Proof.
  unfold Go.FormatInt. intros H.
  rewrite <- (DecimalZ.of_to a), <- (DecimalZ.of_to b). f_equal.
  assert (Hn : ∀ z, NilZero.int_of_string (NilZero.string_of_int (Z.to_int z))
                    = Some (Z.to_int z)).
  { intros z. apply NilZero.isi.
    - destruct z; simpl; try discriminate; intros [=E];
        by apply Unsigned.to_uint_nonnil in E.
    - destruct z; simpl; try discriminate; intros [=E];
        by apply Unsigned.to_uint_nonnil in E. }
  pose proof (Hn a) as Ha. rewrite H, Hn in Ha. by injection Ha.
Qed.

(** *** The key schema *)


Lemma keyAll_tkey h p : keyAll h p = tkey (h +:+ p) "}:all".
Proof. unfold keyAll, tkey. by rewrite append_assoc. Qed.
Lemma keyApproved_tkey h p : keyApproved h p = tkey (h +:+ p) "}:approved".
Proof. unfold keyApproved, tkey. by rewrite append_assoc. Qed.
Lemma keyEnabled_tkey h p : keyEnabled h p = tkey (h +:+ p) "}:enabled".
Proof. unfold keyEnabled, tkey. by rewrite append_assoc. Qed.
Lemma keyComment_tkey h p id :
  keyComment h p id = tkey (h +:+ p) ("}:comment:" +:+ Go.FormatInt id).
Proof. unfold keyComment, tkey. by rewrite append_assoc. Qed.

Lemma tkey_inj t t' s : tkey t s = tkey t' s → t = t'.
Proof. unfold tkey. intros H%(inj _). by apply append_inv_tail in H. Qed.

Lemma tkey_ending n t s l :
  ending n s = l → length l = n → ending n (tkey t s) = l.
Proof.
  intros H1 H2. unfold tkey. apply ending_append'; [|done].
  by apply ending_append'.
Qed.

Lemma keyComment_ending h p id :
  ∃ c, In c digits ∧ ending 1 (keyComment h p id) = [c].
Proof.
  destruct (FormatInt_ending id) as (c & Hc & He). exists c. split; [done|].
  rewrite keyComment_tkey. apply tkey_ending; [|done]. by apply ending_append'.
Qed.

(** Keys of different kinds are different strings. *)
Lemma keyAll_ne_keyApproved h p h' p' : keyAll h p ≠ keyApproved h' p'.
Proof.
  rewrite keyAll_tkey, keyApproved_tkey. intros H%(f_equal (ending 1)).
  by rewrite (tkey_ending 1 _ "}:all" ["l"%char]),
             (tkey_ending 1 _ "}:approved" ["d"%char]) in H.
Qed.

Lemma keyAll_ne_keyEnabled h p h' p' : keyAll h p ≠ keyEnabled h' p'.
Proof.
  rewrite keyAll_tkey, keyEnabled_tkey. intros H%(f_equal (ending 1)).
  by rewrite (tkey_ending 1 _ "}:all" ["l"%char]),
             (tkey_ending 1 _ "}:enabled" ["d"%char]) in H.
Qed.

Lemma keyApproved_ne_keyEnabled h p h' p' : keyApproved h p ≠ keyEnabled h' p'.
Proof.
  rewrite keyApproved_tkey, keyEnabled_tkey. intros H%(f_equal (ending 3)).
  by rewrite (tkey_ending 3 _ "}:approved" ["d"; "e"; "v"]%char),
             (tkey_ending 3 _ "}:enabled" ["d"; "e"; "l"]%char) in H.
Qed.

Lemma keyAll_ne_keyComment h p h' p' id : keyAll h p ≠ keyComment h' p' id.
Proof.
  intros H%(f_equal (ending 1)). destruct (keyComment_ending h' p' id) as (c & Hc & He).
  rewrite He, keyAll_tkey, (tkey_ending 1 _ "}:all" ["l"%char]) in H by done.
  simpl in Hc. injection H as <-. intuition discriminate.
Qed.


(** Two threads with the same approved key have the same all key. *)
Lemma keyApproved_keyAll h p h' p' :
  keyApproved h p = keyApproved h' p' → keyAll h p = keyAll h' p'.
Proof.
  rewrite !keyApproved_tkey, !keyAll_tkey. by intros ->%tkey_inj.
Qed.

(** *** Running programs *)

Section run.
Context {A : Type}.
Implicit Types (p : prog A) (w : world).

Lemma run_Ret fuel (a : A) w : run fuel (Ret a) w = Some (a, w).
Proof. by destruct fuel. Qed.

Lemma run_S fuel p w :
  is_ret p = false →
  run (S fuel) p w = run fuel (step p w).1.1 (step p w).1.2.
Proof. destruct p; try done; simpl; intros _; by destruct (conn_Do c w). Qed.

Lemma run_O p w : is_ret p = false → run O p w = None.
Proof. by destruct p. Qed.

Lemma run_mono n m p w r : run n p w = Some r → (n <= m)%nat → run m p w = Some r.
Proof.
  revert m p w. induction n as [|n IH]; intros m p w Hr Hle.
  - destruct p; try done. by rewrite run_Ret.
  - destruct (is_ret p) eqn:Hp.
    + destruct p; try done. by rewrite run_Ret.
    + destruct m as [|m]; [lia|]. rewrite run_S in * by done.
      apply IH; [done | lia].
Qed.

End run.

Lemma bind_assoc {A B C} (p : prog A) (g : A → prog B) (f : B → prog C) :
  bind (bind p g) f = bind p (fun x => bind (g x) f).
Proof.
  induction p; simpl; try done; f_equal; try done;
    apply functional_extensionality; auto.
Qed.

Lemma loop_next_bind {A I B C} (body : I → prog (I + B)) (k : B → prog A)
    (f : A → prog C) :
  (fun r => bind (loop_next body k r) f) = loop_next body (fun b => bind (k b) f).
Proof. apply functional_extensionality. by intros [j|b]. Qed.

Lemma is_ret_bind {A B} (p : prog A) (f : A → prog B) :
  is_ret p = false → is_ret (bind p f) = false.
Proof. by destruct p. Qed.

Lemma step_bind {A B} (p : prog A) (f : A → prog B) w :
  is_ret p = false →
  step (bind p f) w = (bind (step p w).1.1 f, (step p w).1.2, (step p w).2).
Proof.
  destruct p; try done; intros _; simpl.
  - by destruct (conn_Do c w).
  - by rewrite bind_assoc, loop_next_bind.
Qed.

Lemma run_bind {A B} n m (p : prog A) (f : A → prog B) w a w1 r :
  run n p w = Some (a, w1) → run m (f a) w1 = Some r →
  run (n + m) (bind p f) w = Some r.
Proof.
  revert p w. induction n as [|n IH]; intros p w Hp Hf.
  - destruct p; try done. injection Hp as -> ->. done.
  - destruct (is_ret p) eqn:Hret.
    + destruct p; try done. injection Hp as -> ->. simpl bind.
      eapply run_mono; [done | lia].
    + rewrite run_S in Hp by done. simpl plus.
      rewrite run_S by by apply is_ret_bind. rewrite step_bind by done. simpl.
      by apply IH.
Qed.

Lemma run_bind_inv {A B} n (p : prog A) (f : A → prog B) w r :
  run n (bind p f) w = Some r →
  ∃ a w1, run n p w = Some (a, w1) ∧ run n (f a) w1 = Some r.
Proof.
  revert p w. induction n as [|n IH]; intros p w Hr.
  - destruct p; try done. simpl in Hr. eauto.
  - destruct (is_ret p) eqn:Hret.
    + destruct p; try done. simpl bind in Hr. rewrite run_Ret. eauto.
    + rewrite run_S in Hr by by apply is_ret_bind. rewrite step_bind in Hr by done.
      simpl in Hr. apply IH in Hr as (a & w1 & H1 & H2).
      exists a, w1. rewrite run_S by done. split; [done|].
      eapply run_mono; [done | lia].
Qed.

Section returns.
Context {A : Type}.
Implicit Types (p : prog A) (w : world).

Lemma returns_det p w a1 w1 a2 w2 :
  returns p w a1 w1 → returns p w a2 w2 → a1 = a2 ∧ w1 = w2.
Proof.
  intros [n Hn] [m Hm].
  apply (run_mono _ (n + m)) in Hn; [|lia]. apply (run_mono _ (n + m)) in Hm; [|lia].
  rewrite Hn in Hm. by injection Hm.
Qed.

Lemma returns_Ret (a b : A) w w' : returns (Ret a) w b w' ↔ b = a ∧ w' = w.
Proof.
  split.
  - intros [n Hn]. rewrite run_Ret in Hn. by injection Hn.
  - intros [-> ->]. by exists O.
Qed.

Lemma returns_step p w a w' :
  is_ret p = false →
  returns p w a w' ↔ returns (step p w).1.1 (step p w).1.2 a w'.
Proof.
  intros Hp. split.
  - intros [[|n] Hn]; [by rewrite run_O in Hn|]. rewrite run_S in Hn by done. by exists n.
  - intros [n Hn]. exists (S n). by rewrite run_S.
Qed.

End returns.

Lemma returns_bind {A B} (p : prog A) (f : A → prog B) w a w1 b w2 :
  returns p w a w1 → returns (f a) w1 b w2 → returns (bind p f) w b w2.
Proof. intros [n Hn] [m Hm]. exists (n + m)%nat. by eapply run_bind. Qed.

Lemma returns_bind_inv {A B} (p : prog A) (f : A → prog B) w b w2 :
  returns (bind p f) w b w2 → ∃ a w1, returns p w a w1 ∧ returns (f a) w1 b w2.
Proof.
  intros [n Hn]. apply run_bind_inv in Hn as (a & w1 & H1 & H2).
  exists a, w1. split; by exists n.
Qed.

(** *** Partial-correctness reasoning for one call run alone *)


Section wp.
Context {A : Type}.
Implicit Types (p : prog A) (w : world) (Q : A → world → Prop).

Lemma wp_mono p Q Q' w : (∀ a w', Q a w' → Q' a w') → wp p Q w → wp p Q' w.
Proof. unfold wp. eauto. Qed.

Lemma wp_Ret (a : A) Q w : Q a w → wp (Ret a) Q w.
Proof. intros HQ b w' [-> ->]%returns_Ret. done. Qed.

Lemma wp_step p Q w :
  is_ret p = false → wp (step p w).1.1 Q (step p w).1.2 → wp p Q w.
Proof. intros Hp H a w' Hr. apply H. by apply returns_step in Hr. Qed.

Lemma wp_Do c (k : result → prog A) Q w :
  wp (k (conn_Do c w).1) Q (conn_Do c w).2 → wp (Do c k) Q w.
Proof. intros H. apply wp_step; [done|]. simpl. by destruct (conn_Do c w). Qed.

Lemma wp_Now (k : Z → prog A) Q w : wp (k (now w)) Q w → wp (Now k) Q w.
Proof. intros H. by apply wp_step. Qed.

Lemma wp_Sleep (k : prog A) Q w :
  wp k Q (World (store w) (now w + 1) (faults w) (akismet w) (logs w)
                (trace w) (posted w)) →
  wp (Sleep k) Q w.
Proof. intros H. by apply wp_step. Qed.

Lemma wp_Log l (k : prog A) Q w :
  wp k Q (World (store w) (now w) (faults w) (akismet w) (logs w ++ [l])
                (trace w) (posted w)) →
  wp (Log l k) Q w.
Proof. intros H. by apply wp_step. Qed.

Lemma wp_PostForm u d (k : outcome → prog A) Q w :
  wp (k (hd PostFailed (akismet w))) Q
     (World (store w) (now w) (faults w) (tail (akismet w)) (logs w)
            (trace w) (posted w ++ [(u, d)])) →
  wp (PostForm u d k) Q w.
Proof. intros H. by apply wp_step. Qed.

End wp.

Lemma wp_bind {A B} (p : prog A) (f : A → prog B) Q w :
  wp p (fun a w1 => wp (f a) Q w1) w → wp (bind p f) Q w.
Proof.
  intros H b w2 (a & w1 & H1 & H2)%returns_bind_inv. by apply (H a w1).
Qed.

Lemma wp_Iter {A I B} (body : I → prog (I + B)) (k : B → prog A)
    (Inv : I → world → Prop) Q i w :
  (∀ j w1, Inv j w1 →
     wp (body j) (fun r w2 => match r with
                              | inl j' => Inv j' w2
                              | inr b => wp (k b) Q w2
                              end) w1) →
  Inv i w → wp (Iter body i k) Q w.
Proof.
  intros Hbody Hinv a w' [n Hn]. revert i w Hinv Hn.
  induction (lt_wf n) as [n _ IH]. intros i w Hinv Hn.
  destruct n as [|n]; [done|]. rewrite run_S in Hn by done. simpl in Hn.
  apply run_bind_inv in Hn as (r & w1 & H1 & H2).
  pose proof (Hbody i w Hinv r w1 (ex_intro _ n H1)) as Hr.
  destruct r as [j|b]; simpl in H2.
  - eapply (IH n); [lia | done | done].
  - apply Hr. by exists n.
Qed.

(** *** The logic of command histories *)

Lemma respects_mono {A} P (p : prog A) Q Q' h :
  (∀ h' a, Q h' a → Q' h' a) → respects P p Q h → respects P p Q' h.
Proof.
  revert Q Q' h. induction p as [A a|A c k IH|A k IH|A k IH|A u d k IH|A l k IH|A I B body IHb i k IHk];
    intros Q Q' h HQ; simpl.
  - apply HQ.
  - intros [Hc Hk]. split; [done|]. intros r. by eapply IH.
  - intros Hk t. by eapply IH.
  - by apply IH.
  - intros Hk o. by eapply IH.
  - by apply IH.
  - intros (Inv & Hi & Hbody). exists Inv. split; [done|].
    intros j h' Hj. eapply IHb; [|by apply Hbody].
    intros h'' [j'|b]; [done|]. by apply IHk.
Qed.

Lemma respects_bind {A B} P (p : prog A) (f : A → prog B) Q h :
  respects P p (fun h' a => respects P (f a) Q h') h → respects P (bind p f) Q h.
Proof.
  revert B f Q h. induction p as [A a|A c k IH|A k IH|A k IH|A u d k IH|A l k IH|A I B' body IHb i k IHk];
    intros B f Q h; simpl.
  - done.
  - intros [Hc Hk]. split; [done|]. intros r. by apply IH.
  - intros Hk t. by apply IH.
  - by apply IH.
  - intros Hk o. by apply IH.
  - by apply IH.
  - intros (Inv & Hi & Hbody). exists Inv. split; [done|].
    intros j h' Hj. eapply respects_mono; [|by apply Hbody].
    intros h'' [j'|b]; [done|]. by apply IHk.
Qed.

Lemma respects_step {A} P (p : prog A) Q h w :
  respects P p Q h →
  respects P (step p w).1.1 Q (h ++ Pool.option_ev (step p w).2) ∧
  (∀ c r, (step p w).2 = Some (c, r) → P h c ∧ conn_Do c w = (r, (step p w).1.2)).
Proof.
  destruct p as [a|c k|k|k|u d k|l k|I B body i k]; simpl; intros H;
    rewrite ?app_nil_r; try (split; [by auto|done]).
  - destruct H as [Hc Hk]. destruct (conn_Do c w) as [r w'] eqn:E. simpl. split; [done|].
    by intros c' r' [= <- <-].
  - destruct H as (Inv & Hi & Hbody). split; [|done].
    apply respects_bind. eapply respects_mono; [|by apply Hbody].
    intros h' [j|b]; simpl; [|done]. intros Hj. by exists Inv.
Qed.

(** *** What one command does to the store *)

Lemma conn_Do_reply c w :
  (conn_Do c w).1 = if hd false (faults w) then Fail ConnError else (exec c (store w)).1.
Proof.
  unfold conn_Do. destruct (faults w) as [|[] fs]; simpl; try done;
    by destruct (exec c (store w)).
Qed.

Lemma conn_Do_store c w :
  store (conn_Do c w).2 = if hd false (faults w) then store w else (exec c (store w)).2.
Proof.
  unfold conn_Do. destruct (faults w) as [|[] fs]; simpl; try done;
    by destruct (exec c (store w)).
Qed.

Lemma conn_Do_trace c w : trace (conn_Do c w).2 = trace w ++ [(c, (conn_Do c w).1)].
Proof.
  unfold conn_Do. destruct (faults w) as [|[] fs]; simpl; try done;
    by destruct (exec c (store w)).
Qed.

Lemma conn_Do_rest c w :
  now (conn_Do c w).2 = now w ∧ faults (conn_Do c w).2 = tail (faults w) ∧
  akismet (conn_Do c w).2 = akismet w ∧ logs (conn_Do c w).2 = logs w ∧
  posted (conn_Do c w).2 = posted w.
Proof.
  unfold conn_Do. destruct (faults w) as [|[] fs]; simpl; try done;
    by destruct (exec c (store w)).
Qed.

Lemma zset_at_insert_ne s k k' v : k' ≠ k → zset_at (<[k' := v]> s) k = zset_at s k.
Proof. intros H. unfold zset_at. by rewrite lookup_insert_ne. Qed.

Lemma zset_at_insert s k z : zset_at (<[k := VZSet z]> s) k = z.
Proof. unfold zset_at. by rewrite lookup_insert_eq. Qed.

(** Only [SET k] and [ZADD k] can change the sorted set read at [k]. *)
Lemma exec_zset_at_other c s k :
  (∀ score m, c ≠ ZADD k score m) → (∀ v, c ≠ SET k v) →
  zset_at (exec c s).2 k = zset_at s k.
Proof.
  intros Hz Hs. destruct c as [k'|k' v|k' m|k' sc m|k' fs|k'|k' o n]; simpl;
    try (by repeat case_match).
  - apply zset_at_insert_ne. intros ->. by eapply Hs.
  - assert (k' ≠ k) by (intros ->; by eapply Hz).
    repeat case_match; simpl; try done; by apply zset_at_insert_ne.
  - destruct (decide (k' = k)) as [->|Hne].
    + unfold zset_at. repeat case_match; simplify_map_eq; done.
    + repeat case_match; simpl; try done; by apply zset_at_insert_ne.
Qed.

Lemma exec_ZADD_dom k score m s :
  dom (zset_at s k) ⊆ dom (zset_at (exec (ZADD k score m) s).2 k).
Proof.
  simpl. unfold zset_at at 1. repeat case_match; simpl; try done;
    rewrite ?zset_at_insert, ?dom_insert_L; set_solver.
Qed.

Lemma exec_ZADD_added k score m s :
  added ((exec (ZADD k score m) s).1) →
  (m ∉ dom (zset_at s k)) ∧ m ∈ dom (zset_at (exec (ZADD k score m) s).2 k).
Proof.
  unfold added. simpl. unfold zset_at at 1.
  destruct (s !! k) as [[| |z|]|] eqn:E; simpl; try done.
  - rewrite zset_at_insert, dom_insert_L. case_decide as Hm; simpl; [done|].
    intros _. split; [|set_solver]. rewrite elem_of_dom. done.
  - rewrite zset_at_insert. intros _. split; [set_solver|].
    rewrite dom_singleton_L. set_solver.
Qed.

Lemma exec_ZADD_members k score m s :
  dom (zset_at (exec (ZADD k score m) s).2 k) ⊆ dom (zset_at s k) ∪ {[m]}.
Proof.
  simpl. destruct (s !! k) as [[| |z|]|] eqn:E; simpl;
    unfold zset_at; rewrite ?lookup_insert_eq, ?E; set_solver.
Qed.

Lemma added_not_fail e : ¬ added (Fail e).
Proof. by unfold added. Qed.

(** An allowed command never takes an id out of an all index... *)
Lemma allowed_AllIndex h c s host path :
  allowed h c → AllIndex s host path ⊆ AllIndex (exec c s).2 host path.
Proof.
  intros Hc. unfold AllIndex.
  destruct c as [k|k v|k m|k sc m|k fs|k|k o n];
    try (rewrite exec_zset_at_other; done).
  - rewrite exec_zset_at_other; [done..|].
    intros v' [= ->]. destruct Hc as (h' & p' & Hk). by apply keyAll_ne_keyEnabled in Hk.
  - destruct (decide (k = keyAll host path)) as [->|Hne]; [apply exec_ZADD_dom|].
    rewrite exec_zset_at_other; [done| |done]. by intros sc' m' [= -> _ _].
Qed.

(** ... and only grows an approved index by an id the same call has seen
    added to the all index of that thread. *)
Lemma allowed_ApprovedIndex h c s host path m :
  allowed h c → m ∈ ApprovedIndex (exec c s).2 host path →
  m ∈ ApprovedIndex s host path ∨
  ∃ score r, (ZADD (keyAll host path) score m, r) ∈ h ∧ added r.
Proof.
  intros Hc. unfold ApprovedIndex.
  destruct c as [k|k v|k m'|k sc m'|k fs|k|k o n];
    try (rewrite exec_zset_at_other; [by left|done..]).
  - rewrite exec_zset_at_other; [by left|done|].
    intros v' [= ->]. destruct Hc as (h' & p' & Hk).
    by apply keyApproved_ne_keyEnabled in Hk.
  - destruct (decide (k = keyApproved host path)) as [->|Hne].
    + intros [Hm| ->%elem_of_singleton]%exec_ZADD_members%elem_of_union; [by left|].
      right. destruct Hc as [_ [(h' & p' & Hk)|(h' & p' & r & Hk & Hin & Hr)]].
      * by apply eq_sym, keyAll_ne_keyApproved in Hk.
      * apply keyApproved_keyAll in Hk. rewrite Hk. eauto.
    + rewrite exec_zset_at_other; [by left| |done]. by intros sc' m'' [= -> _ _].
Qed.

(** *** Invariants of a pool of calls *)

Lemma step_silent_store {A} (p : prog A) w :
  (step p w).2 = None → store (step p w).1.2 = store w.
Proof. destruct p; simpl; try done. by destruct (conn_Do c w). Qed.

(** An allowed command keeps every sorted set well formed. *)
Lemma allowed_scores_wf h c s : allowed h c → scores_wf s → scores_wf (exec c s).2.
Proof.
  intros Hc Hwf key.
  destruct c as [k|k v|k m'|k sc m'|k fs|k|k o n];
    try (rewrite exec_zset_at_other; done).
  - destruct (decide (k = key)) as [->|Hne].
    + simpl. unfold zset_at. rewrite lookup_insert_eq. by intros m sc.
    + rewrite exec_zset_at_other; [done|done|]. by intros v' [= ->].
  - destruct Hc as [-> _]. destruct (decide (k = key)) as [->|Hne].
    + specialize (Hwf key). simpl. unfold zset_at in *.
      destruct (s !! key) as [[| |z|]|] eqn:E; simpl; rewrite ?E, ?lookup_insert_eq;
        try done.
      * intros m sc' [[<- <-]|[_ Hm]]%lookup_insert_Some; [done|]. by apply Hwf.
      * by intros m sc' [<- <-]%lookup_singleton_Some.
    + rewrite exec_zset_at_other; [done| |done]. by intros sc' m'' [= -> _ _].
Qed.

Section pool_invariants.
Context {X A : Type} (call : X → prog A) (Q : X → list ev → A → Prop) (w0 : world).
Hypothesis call_respects : ∀ x, respects allowed (call x) (Q x) [].

Implicit Types (st : state X A) (t : thread X A).

(** The commands of the pool after one step of call [i]. *)
Lemma ev_at_run st i t j b e :
  pool st !! i = Some t →
  ev_at (sys_step call st (Run i)) j b e →
  ev_at st j b e ∨
  (j = i ∧ b = length (hist t) ∧ (step (code t) (env st)).2 = Some e).
Proof.
  intros Ht. unfold sys_step. rewrite Ht.
  destruct (step (code t) (env st)) as [[p' w'] oe] eqn:E. simpl.
  intros (t' & Hj & Hb). apply list_lookup_insert_Some in Hj as [(-> & <- & _)|[? Hj]].
  - simpl in Hb. apply lookup_app_Some in Hb as [Hb|[Hlen Hb]].
    + left. by exists t.
    + right. destruct oe as [e'|]; simpl in Hb; [|done].
      apply list_lookup_singleton_Some in Hb as [Hb ->].
      split; [done|]. split; [lia|done].
  - left. by exists t'.
Qed.

(** A step that leaves the store and every call's commands alone. *)
Lemma pool_inv_quiet st st' :
  threads_respect Q st' → store (env st') = store (env st) →
  (∀ j b e, ev_at st' j b e → ev_at st j b e) →
  pool_inv Q w0 st → pool_inv Q w0 st'.
Proof.
  intros Hresp' Hst Hold (_ & Hrec & Huniq & Hsub & Hwf).
  split; [done|]. unfold adds_recorded. rewrite Hst. split; [|split; [|done]].
  - intros j b host path sc m' r' Hj Hadd. eapply Hrec; [|done]. by apply Hold.
  - intros j b j' b' host path sc sc' m' r1 r2 H1 Ha1 H2 Ha2.
    eapply Huniq; [by apply Hold|done|by apply Hold|done].
Qed.

Lemma pool_inv_step st m : pool_inv Q w0 st → pool_inv Q w0 (sys_step call st m).
Proof.
  intros Hinv. pose proof Hinv as (Hresp & Hrec & Huniq & Hsub & Hwf).
  destruct m as [i|t'|x].
  - (* call [i] takes a step *)
    destruct (pool st !! i) as [t|] eqn:Ht; [|by unfold sys_step; rewrite Ht].
    pose proof (respects_step allowed (code t) (Q (arg t)) (hist t) (env st) (Hresp i t Ht))
      as [Hnext Hcmd].
    pose proof (fun j b e => ev_at_run st i t j b e Ht) as Hev.
    assert (store (env (sys_step call st (Run i))) = store (step (code t) (env st)).1.2) as Hst.
    { unfold sys_step. rewrite Ht. by destruct (step (code t) (env st)) as [[??]?]. }
    assert (threads_respect Q (sys_step call st (Run i))) as Hresp'.
    { unfold sys_step, threads_respect. rewrite Ht.
      destruct (step (code t) (env st)) as [[p' w'] oe]. simpl in *.
      intros j t' [(-> & <- & _)|[? Hj]]%list_lookup_insert_Some; [exact Hnext|].
      by eapply Hresp. }
    destruct (step (code t) (env st)).2 as [[c r]|] eqn:Eoe.
    + destruct (Hcmd c r eq_refl) as [Hallowed Hdo].
      assert (store (step (code t) (env st)).1.2 = store (conn_Do c (env st)).2) as Hw
        by by rewrite Hdo.
      rewrite Hw, conn_Do_store in Hst.
      assert (r = (conn_Do c (env st)).1) as Hr by by rewrite Hdo.
      rewrite conn_Do_reply in Hr.
      destruct (hd false (faults (env st))) eqn:Hfault.
      * (* the connection failed: the store is as it was, nothing was added *)
        assert (∀ j b e r', ev_at (sys_step call st (Run i)) j b (e, r') → added r' →
                            ev_at st j b (e, r')) as Hold.
        { intros j b e r' [?|(_ & _ & [= <- <-])]%Hev Hadd; [done..|].
          subst r. by apply added_not_fail in Hadd. }
        split; [done|]. unfold adds_recorded. rewrite Hst. split; [|split; [|done]].
        -- intros j b host path sc m' r' Hj Hadd. eapply Hrec; [|done]. by apply Hold.
        -- intros j b j' b' host path sc sc' m' r1 r2 H1 Ha1 H2 Ha2.
           eapply Huniq; [by apply Hold|done|by apply Hold|done].
      * (* the command ran on the server *)
        assert (∀ host path, AllIndex (store (env st)) host path
                             ⊆ AllIndex (exec c (store (env st))).2 host path) as Hmono
          by (intros; by eapply allowed_AllIndex).
        assert (∀ j b host path sc m' r',
                  ev_at (sys_step call st (Run i)) j b (ZADD (keyAll host path) sc m', r') →
                  added r' →
                  ev_at st j b (ZADD (keyAll host path) sc m', r') ∨
                  (j = i ∧ b = length (hist t) ∧
                   (m' ∉ AllIndex (store (env st)) host path) ∧
                   m' ∈ AllIndex (exec c (store (env st))).2 host path)) as Hnew.
        { intros j b host path sc m' r' [?|(-> & -> & [= Hc' Hr'])]%Hev Hadd; [by left|].
          right. subst c r r'. apply exec_ZADD_added in Hadd. done. }
        split; [done|]. unfold adds_recorded. rewrite Hst. split; [|split; [|split]].
        -- intros j b host path sc m' r' Hj Hadd.
           destruct (Hnew _ _ _ _ _ _ _ Hj Hadd) as [Hj'|(_ & _ & _ & ?)]; [|done].
           apply Hmono. by eapply Hrec.
        -- intros j b j' b' host path sc sc' m' r1 r2 H1 Ha1 H2 Ha2.
           destruct (Hnew _ _ _ _ _ _ _ H1 Ha1) as [H1'|(-> & -> & Hn1 & _)],
                    (Hnew _ _ _ _ _ _ _ H2 Ha2) as [H2'|(-> & -> & Hn2 & _)]; [| | |done].
           ++ by eapply Huniq.
           ++ exfalso. apply Hn2. by eapply Hrec.
           ++ exfalso. apply Hn1. by eapply Hrec.
        -- intros H0 host path m' Hm'. specialize (Hsub H0).
           eapply allowed_ApprovedIndex in Hm' as [Hm'|(sc & r' & Hin & Hadd)]; [| |done].
           ++ by apply Hmono, Hsub.
           ++ apply Hmono. apply list_elem_of_lookup in Hin as [a Ha].
              eapply Hrec; [|done]. by exists t.
        -- intros H0. eapply allowed_scores_wf; [done|]. by apply Hwf.
    + (* a step without a store command *)
      rewrite step_silent_store in Hst by done.
      apply (pool_inv_quiet st); [done..| |done].
      by intros j b e [?|(_ & _ & ?)]%Hev.
  - (* the clock moves *)
    done.
  - (* a request arrives *)
    apply (pool_inv_quiet st); [|done| |done].
    + intros j t' Hj. simpl in Hj.
      apply lookup_app_Some in Hj as [Hj|[_ Hj]]; [by eapply Hresp|].
      apply list_lookup_singleton_Some in Hj as [_ <-]. apply call_respects.
    + intros j b e (t' & Hj & Hb). simpl in Hj.
      apply lookup_app_Some in Hj as [Hj|[_ Hj]]; [by exists t'|].
      apply list_lookup_singleton_Some in Hj as [_ <-]. done.
Qed.

Lemma pool_inv_run st ms : pool_inv Q w0 st → pool_inv Q w0 (sys_run call st ms).
Proof.
  revert st. induction ms as [|m ms IH]; intros st Hinv; [done|].
  simpl. apply IH. by apply pool_inv_step.
Qed.

Lemma pool_inv_reachable st : reachable call w0 st → pool_inv Q w0 st.
Proof.
  intros [ms <-]. apply pool_inv_run. split; [|split; [|split]].
  - by intros i t Hi.
  - by intros i a host path sc m r (t & Hi & _).
  - by intros i a j b host path sc sc' m r r' (t & Hi & _).
  - done.
Qed.

(** No step of the pool takes an id out of an all index. *)
Lemma AllIndex_step st m host path :
  pool_inv Q w0 st →
  AllIndex (store (env st)) host path
    ⊆ AllIndex (store (env (sys_step call st m))) host path.
Proof.
  intros (Hresp & _). destruct m as [i|t'|x]; [|done..].
  unfold sys_step. destruct (pool st !! i) as [t|] eqn:Ht; [|done].
  pose proof (respects_step allowed (code t) (Q (arg t)) (hist t) (env st) (Hresp i t Ht))
    as [_ Hcmd].
  pose proof (step_silent_store (code t) (env st)) as Hsilent.
  destruct (step (code t) (env st)) as [[p' w'] [[c r]|]]; simpl in *.
  - destruct (Hcmd c r eq_refl) as [Hallowed Hdo].
    replace w' with (conn_Do c (env st)).2 by by rewrite Hdo.
    rewrite conn_Do_store. destruct (hd _ _); [done|]. by eapply allowed_AllIndex.
  - by rewrite Hsilent.
Qed.

(** A step of the pool adds to an approved index only an id that is in the
    all index of the thread before the step. *)
Lemma ApprovedIndex_step st m host path id :
  pool_inv Q w0 st →
  id ∈ ApprovedIndex (store (env (sys_step call st m))) host path →
  id ∈ ApprovedIndex (store (env st)) host path ∨
  id ∈ AllIndex (store (env st)) host path.
Proof.
  intros (Hresp & Hrec & _). destruct m as [i|t'|x]; [|by left..].
  unfold sys_step. destruct (pool st !! i) as [t|] eqn:Ht; [|by left].
  pose proof (respects_step allowed (code t) (Q (arg t)) (hist t) (env st) (Hresp i t Ht))
    as [_ Hcmd].
  pose proof (step_silent_store (code t) (env st)) as Hsilent.
  destruct (step (code t) (env st)) as [[p' w'] [[c r]|]]; simpl in *.
  - destruct (Hcmd c r eq_refl) as [Hallowed Hdo].
    replace w' with (conn_Do c (env st)).2 by by rewrite Hdo.
    rewrite conn_Do_store. destruct (hd _ _); [by left|].
    intros [?|(sc & r' & Hin & Hadd)]%(allowed_ApprovedIndex (hist t)); [by left| |done].
    right. apply list_elem_of_lookup in Hin as [a Ha]. eapply Hrec; [|done]. by exists t.
  - rewrite Hsilent by done. by left.
Qed.

Lemma AllIndex_run st ms host path :
  pool_inv Q w0 st →
  AllIndex (store (env st)) host path
    ⊆ AllIndex (store (env (sys_run call st ms))) host path.
Proof.
  revert st. induction ms as [|m ms IH]; intros st Hinv; [done|].
  simpl. etrans; [by apply (AllIndex_step st m)|]. apply IH. by apply pool_inv_step.
Qed.

End pool_invariants.

(** *** Every function of main.go keeps the discipline *)

Lemma respects_getComments_range host path ids comments h :
  respects allowed (getComments_range host path ids comments) anything h.
Proof.
  revert comments h. induction ids as [|id ids IH]; intros comments h; simpl; [done|].
  split; [done|]. intros r. destruct (Values r) as [vals [e|]]; [done|].
  destruct (ScanStruct _ _) as [c [e|]]; [done|]. apply IH.
Qed.

Lemma respects_getComments host path h :
  respects allowed (getComments host path) anything h.
Proof.
  unfold getComments. simpl. split; [done|]. intros r.
  destruct (Strings r) as [ids [e|]]; [done|]. apply respects_getComments_range.
Qed.

Lemma respects_autoEnabled host path h :
  respects allowed (autoEnabled host path) anything h.
Proof.
  unfold autoEnabled. simpl. split; [done|]. intros r.
  destruct (Bool r) as [en err]. case_decide; [|done]. simpl.
  split; [done|]. intros r'. destruct (Bool r') as [en' [e|]]; [done|].
  destruct en'; simpl; [|done]. split; [by eexists _, _|done].
Qed.

Lemma respects_saveComment req h :
  respects allowed (saveComment req) (save_post req) h.
Proof.
  unfold saveComment, saveComment_loop. simpl.
  exists (fun _ _ => True). split; [done|]. intros _ h' _ t. simpl.
  split; [split; [done|left; by eexists _, _]|]. intros r.
  destruct (Bool r) as [added' [e|]] eqn:Hr; simpl.
  { by intros [=]. }
  destruct added'; simpl; [|done].
  split; [done|]. intros r'. destruct (String r') as [ok [e|]]; simpl.
  { by intros [=]. }
  assert (save_post req ((h' ++ [(ZADD (keyAll (host req) (path req)) t (Go.FormatInt t), r)])
                           ++ [(HMSET (keyComment (host req) (path req) t) (AddFlat req), r')])
                    (t, None)).
  { intros _. exists r. split; [|done]. simpl. rewrite !elem_of_app, !list_elem_of_singleton. auto. }
  by case_decide.
Qed.

Lemma respects_autoApproveComment akismetKey host path id h r :
  (ZADD (keyAll host path) id (Go.FormatInt id), r) ∈ h → added r →
  respects allowed (autoApproveComment akismetKey host path id) anything h.
Proof.
  intros Hin Hadd. unfold autoApproveComment. case_decide; [done|]. simpl.
  split; [done|]. intros r1. destruct (StringMap r1) as [values [e|]]; [done|].
  simpl. intros [| |body]; try done. destruct (Go.ParseBool body) as [isSpam [e|]]; [done|].
  destruct isSpam; simpl; [done|]. split.
  - split; [done|]. right. exists host, path, r. split; [done|]. split; [|done].
    rewrite elem_of_app. by left.
  - intros r2. by destruct (Bool r2) as [? [?|]].
Qed.

Lemma respects_commentHandler url_Parse net_ResolveTCPAddr akismetKey r :
  respects allowed (commentHandler url_Parse net_ResolveTCPAddr akismetKey r) anything [].
Proof.
  unfold commentHandler. generalize (@nil ev) as h. intros h.
  generalize (ParseForm_written r) as w. intros w.
  case_decide.
  { destruct (url_Parse _) as [u|e]; [|done]. apply respects_bind.
    eapply respects_mono; [|apply respects_getComments].
    by intros h' [comments [e|]] _. }
  case_decide; [|done].
  destruct (cleanCommentSubmitRequest _ _ _) as [req|e]; [|done].
  apply respects_bind. eapply respects_mono; [|apply respects_autoEnabled].
  intros h1 [en [e|]] _; [done|]. destruct en; cbv beta match delta [negb]; [|done].
  apply respects_bind. eapply respects_mono; [|apply respects_saveComment].
  intros h2 [id [e|]] Hsave; [done|]. destruct (Hsave eq_refl) as (r0 & Hin & Hadd). simpl in *.
  apply respects_bind. eapply respects_mono; [|by eapply respects_autoApproveComment].
  by intros h3 [approved [e|]] _.
Qed.

(** *** Running one call forwards *)

Lemma conn_Do_ok c w :
  hd false (faults w) = false →
  conn_Do c w =
    ((exec c (store w)).1,
     World (exec c (store w)).2 (now w) (tail (faults w)) (akismet w) (logs w)
           (trace w ++ [(c, (exec c (store w)).1)]) (posted w)).
Proof.
  unfold conn_Do. destruct (faults w) as [|[] fs]; simpl; try done;
    by destruct (exec c (store w)).
Qed.

Lemma conn_Do_fault c w :
  hd false (faults w) = true →
  conn_Do c w =
    (Fail ConnError,
     World (store w) (now w) (tail (faults w)) (akismet w) (logs w)
           (trace w ++ [(c, Fail ConnError)]) (posted w)).
Proof. unfold conn_Do. by destruct (faults w) as [|[] fs]. Qed.

Section forward.
Context {A : Type}.
Implicit Types (w : world) (a : A).

Lemma returns_Do c (k : result → prog A) w a w' :
  returns (k (conn_Do c w).1) (conn_Do c w).2 a w' → returns (Do c k) w a w'.
Proof. intros H. apply returns_step; [done|]. simpl. by destruct (conn_Do c w). Qed.

Lemma returns_Log l (k : prog A) w a w' :
  returns k (World (store w) (now w) (faults w) (akismet w) (logs w ++ [l])
                   (trace w) (posted w)) a w' →
  returns (Log l k) w a w'.
Proof. intros H. by apply returns_step. Qed.

Lemma returns_Ret_same a w : returns (Ret a) w a w.
Proof. by apply returns_Ret. Qed.

End forward.

Lemma wp_returns {A} (p : prog A) Q w a w' : wp p Q w → returns p w a w' → Q a w'.
Proof. unfold wp. auto. Qed.

(** *** The enablement resolver *)

Lemma autoEnabled_flag_present host path w v b :
  hd false (faults w) = false →
  store w !! keyEnabled host path = Some (VString v) →
  Go.ParseBool v = (b, None) →
  ∃ w', returns (autoEnabled host path) w (b, None) w' ∧
        store w' = store w ∧
        trace w' = trace w ++ [(GET (keyEnabled host path), Reply (RBulk v))].
Proof.
  intros Hf Hk Hv. eexists. split; [|split].
  - exists 1%nat. unfold autoEnabled. simpl.
    rewrite conn_Do_ok by done. simpl. rewrite Hk. simpl. rewrite Hv.
    rewrite decide_False by done. reflexivity.
  - done.
  - done.
Qed.

Lemma autoEnabled_member host path w members :
  hd false (faults w) = false → hd false (tail (faults w)) = false →
  store w !! keyEnabled host path = None →
  store w !! keyAutoEnable = Some (VSet members) → host ∈ members →
  ∃ w', returns (autoEnabled host path) w (true, None) w' ∧
        store w' = (if hd false (tail (tail (faults w))) then store w
                    else <[keyEnabled host path := VString "true"]> (store w)) ∧
        ∃ r, trace w' = trace w ++ [(GET (keyEnabled host path), Reply RNil);
                                    (SISMEMBER keyAutoEnable host, Reply (RInt 1));
                                    (SET (keyEnabled host path) "true", r)].
Proof.
  intros Hf1 Hf2 Hk Hs Hm.
  destruct (hd false (tail (tail (faults w)))) eqn:Hf3.
  - eexists. split; [|split].
    + exists 3%nat. unfold autoEnabled. simpl.
      rewrite conn_Do_ok by done. simpl. rewrite Hk. simpl.
      rewrite conn_Do_ok by done. simpl. rewrite Hs. simpl.
      rewrite decide_True by done. simpl.
      rewrite conn_Do_fault by done. simpl. reflexivity.
    + done.
    + eexists. simpl. rewrite <- !app_assoc. reflexivity.
  - eexists. split; [|split].
    + exists 3%nat. unfold autoEnabled. simpl.
      rewrite conn_Do_ok by done. simpl. rewrite Hk. simpl.
      rewrite conn_Do_ok by done. simpl. rewrite Hs. simpl.
      rewrite decide_True by done. simpl.
      rewrite conn_Do_ok by done. simpl. reflexivity.
    + done.
    + eexists. simpl. rewrite <- !app_assoc. reflexivity.
Qed.

Lemma autoEnabled_not_member host path w :
  hd false (faults w) = false → hd false (tail (faults w)) = false →
  store w !! keyEnabled host path = None →
  (store w !! keyAutoEnable = None ∨
   ∃ members, store w !! keyAutoEnable = Some (VSet members) ∧ host ∉ members) →
  ∃ w', returns (autoEnabled host path) w (false, None) w' ∧
        store w' = store w ∧
        trace w' = trace w ++ [(GET (keyEnabled host path), Reply RNil);
                               (SISMEMBER keyAutoEnable host, Reply (RInt 0))].
Proof.
  intros Hf1 Hf2 Hk Hs.
  assert ((exec (SISMEMBER keyAutoEnable host) (store w)) = (Reply (RInt 0), store w)) as Hex.
  { simpl. destruct Hs as [Hs|(members & Hs & Hm)]; rewrite Hs; [done|].
    by rewrite decide_False. }
  eexists. split; [|split].
  - exists 2%nat. unfold autoEnabled. simpl bind. unfold Do_. simpl run.
    rewrite conn_Do_ok by done. simpl exec. rewrite Hk. simpl.
    rewrite conn_Do_ok by done. simpl store. rewrite Hex. reflexivity.
  - done.
  - simpl. by rewrite <- app_assoc.
Qed.

(** *** Scanning a hash reply into a [comment] *)

Lemma scan_pairs_flat l c :
  scan_pairs (flat_map bulk_pair l) c = (foldl assign c l, None).
Proof.
  revert c. induction l as [|[k v] l IH]; intros c; [done|].
  simpl flat_map. simpl foldl. rewrite <- IH. unfold assign. simpl.
  repeat case_decide; done.
Qed.

Lemma foldl_assign l c :
  NoDup l.*1 →
  foldl assign c l =
    comment.mk (comment.ID c)
      (default (comment.Author c) ((list_to_map l : gmap string string) !! "comment_author"))
      (default (comment.Content c) ((list_to_map l : gmap string string) !! "comment_content")).
Proof.
  revert c. induction l as [|[k v] l IH]; intros c Hnd.
  - by destruct c.
  - apply NoDup_cons in Hnd as [Hk Hnd]. simpl. rewrite IH by done.
    apply not_elem_of_list_to_map_1 in Hk. unfold assign. simpl.
    repeat case_decide; subst; simplify_map_eq; rewrite ?Hk; try done.
Qed.

Lemma length_flat_map_pair l : length (flat_map bulk_pair l) = (2 * length l)%nat.
Proof. induction l; simpl; lia. Qed.

Lemma ScanStruct_flat h :
  ScanStruct (flat h) (comment.mk "" "" "") =
    (comment.mk "" (field h "comment_author") (field h "comment_content"), None).
Proof.
  unfold ScanStruct, flat. change (fun fv => [RBulk fv.1; RBulk fv.2]) with bulk_pair.
  rewrite length_flat_map_pair.
  replace (Nat.odd (2 * length (map_to_list h))) with false
    by (symmetry; rewrite <- Nat.negb_even, Nat.even_mul; done).
  rewrite scan_pairs_flat, foldl_assign by apply NoDup_fst_map_to_list.
  by rewrite list_to_map_to_list.
Qed.

(** *** Reads *)

Lemma no_faults_le n m w : (n <= m)%nat → no_faults m w → no_faults n w.
Proof.
  intros Hle H b Hb. apply H. replace n with (n `min` m)%nat in Hb by lia.
  rewrite <- take_take in Hb. by eapply subseteq_take.
Qed.

Lemma no_faults_hd n w : no_faults (S n) w → hd false (faults w) = false.
Proof.
  unfold no_faults. destruct (faults w) as [|b fs]; [done|]. simpl.
  intros H. apply H. left.
Qed.

Lemma no_faults_tail n c w : no_faults (S n) w → no_faults n (conn_Do c w).2.
Proof.
  unfold no_faults. destruct (conn_Do_rest c w) as (_ & -> & _).
  destruct (faults w) as [|b fs]; simpl; [by destruct n|].
  intros H b' Hb'. apply H. by right.
Qed.

Lemma strings_of_bulk l : strings_of (RBulk <$> l) = Some l.
Proof.
  induction l as [|x l IH]; [done|]. rewrite fmap_cons.
  change (strings_of (RBulk x :: (RBulk <$> l))) with (cons x <$> strings_of (RBulk <$> l)).
  by rewrite IH.
Qed.

Lemma zmembers_empty o n : zmembers ∅ o n = [].
Proof. unfold zmembers, zrange. rewrite map_to_list_empty. by destruct n, o. Qed.

Lemma exec_HGETALL host path id s :
  (exec (HGETALL (keyComment host path id)) s).2 = s ∧
  ∀ vals, Values (exec (HGETALL (keyComment host path id)) s).1 = (vals, None) →
          vals = flat (default ∅ (record_at s host path id)).
Proof.
  simpl. unfold record_at. destruct (s !! _) as [[]|]; simpl; split; try done;
    by intros vals [= <-].
Qed.

Lemma exec_ZRANGEBYSCORE key o n s :
  (exec (ZRANGEBYSCORE key o n) s).2 = s ∧
  ∀ ids, Strings (exec (ZRANGEBYSCORE key o n) s).1 = (ids, None) →
         ids = zmembers (zset_at s key) o n.
Proof.
  simpl. unfold zset_at. destruct (s !! _) as [[]|]; simpl; split; try done.
  - rewrite strings_of_bulk. by intros ids [= <-].
  - rewrite zmembers_empty. by intros ids [= <-].
Qed.

Lemma wp_getComments_range host path ids comments w :
  wp (getComments_range host path ids comments)
     (fun res w' =>
        store w' = store w ∧
        listing_of (comments ++ (entry (store w) host path <$> ids)) res) w.
Proof.
  revert comments w. induction ids as [|id ids IH]; intros comments w.
  - apply wp_Ret. split; [done|]. simpl. by rewrite app_nil_r.
  - simpl. apply wp_Do.
    pose proof (conn_Do_store (HGETALL (keyComment host path (Go.ParseInt id).1)) w) as Hs.
    pose proof (conn_Do_reply (HGETALL (keyComment host path (Go.ParseInt id).1)) w) as Hr.
    destruct (exec_HGETALL host path (Go.ParseInt id).1 (store w)) as [Hex Hvals].
    destruct (conn_Do _ w) as [r w1]. simpl in *.
    assert (store w1 = store w) as Hw1 by (rewrite Hs, Hex; by destruct (hd _ _)).
    destruct (Values r) as [vals [e|]] eqn:HV.
    { apply wp_Ret. by split. }
    assert (vals = flat (default ∅ (record_at (store w) host path (Go.ParseInt id).1))) as ->.
    { apply Hvals. rewrite <- HV, Hr. destruct (hd _ _); [|done]. by subst r. }
    rewrite ScanStruct_flat. eapply wp_mono; [|apply IH].
    intros res w' [Hw' Hcs]. split; [congruence|].
    rewrite Hw1, <- app_assoc in Hcs. exact Hcs.
Qed.

Lemma wp_getComments host path w :
  wp (getComments host path)
     (fun res w' =>
        store w' = store w ∧
        listing_of (entry (store w) host path
                    <$> zmembers (zset_at (store w) (keyApproved host path)) 0 10) res) w.
Proof.
  unfold getComments. simpl. apply wp_Do.
  pose proof (conn_Do_store (ZRANGEBYSCORE (keyApproved host path) 0 10) w) as Hs.
  pose proof (conn_Do_reply (ZRANGEBYSCORE (keyApproved host path) 0 10) w) as Hr.
  destruct (exec_ZRANGEBYSCORE (keyApproved host path) 0 10 (store w)) as [Hex Hids].
  destruct (conn_Do _ w) as [r w1]. simpl in *.
  assert (store w1 = store w) as Hw1 by (rewrite Hs, Hex; by destruct (hd _ _)).
  destruct (Strings r) as [ids [e|]] eqn:HS.
  { apply wp_Ret. by split. }
  assert (ids = zmembers (zset_at (store w) (keyApproved host path)) 0 10) as ->.
  { apply Hids. rewrite <- HS, Hr. destruct (hd _ _); [|done]. by subst r. }
  eapply wp_mono; [|apply wp_getComments_range].
  intros res w' [Hw' Hcs]. rewrite Hw1 in *. done.
Qed.

Lemma getComments_range_returns host path ids comments w :
  no_faults (length ids) w →
  (∀ id, id ∈ ids → holds_hash (store w) (keyComment host path (Go.ParseInt id).1)) →
  ∃ cs w', returns (getComments_range host path ids comments) w (Some cs, None) w'.
Proof.
  revert comments w. induction ids as [|id ids IH]; intros comments w Hf Hh.
  - eexists _, _. apply returns_Ret_same.
  - simpl.
    pose proof (conn_Do_store (HGETALL (keyComment host path (Go.ParseInt id).1)) w) as Hs.
    pose proof (conn_Do_reply (HGETALL (keyComment host path (Go.ParseInt id).1)) w) as Hr.
    pose proof (no_faults_tail _ (HGETALL (keyComment host path (Go.ParseInt id).1)) _ Hf) as Hf'.
    rewrite (no_faults_hd _ _ Hf) in Hs, Hr. simpl exec in Hs, Hr.
    assert (∃ h, (conn_Do (HGETALL (keyComment host path (Go.ParseInt id).1)) w).1
                 = Reply (RArray (flat h)) ∧
                 store (conn_Do (HGETALL (keyComment host path (Go.ParseInt id).1)) w).2
                 = store w) as (h & Hr' & Hs').
    { rewrite Hr, Hs. destruct (Hh id) as [->|[h ->]]; [left|by exists ∅|by exists h]. }
    destruct (IH (comments ++ [comment.mk id (Go.EscapeString (field h "comment_author"))
                                             (Go.EscapeString (field h "comment_content"))])
                 (conn_Do (HGETALL (keyComment host path (Go.ParseInt id).1)) w).2)
      as (cs & w' & Hret).
    { done. }
    { intros id' Hid'. rewrite Hs'. apply Hh. by right. }
    exists cs, w'. apply returns_Do. rewrite Hr'. simpl Values. cbv beta iota.
    rewrite ScanStruct_flat. exact Hret.
Qed.

Lemma getComments_returns host path w :
  no_faults 11 w →
  holds_zset (store w) (keyApproved host path) →
  (∀ id, id ∈ zmembers (zset_at (store w) (keyApproved host path)) 0 10 →
         holds_hash (store w) (keyComment host path (Go.ParseInt id).1)) →
  ∃ w', returns (getComments host path) w
          (Some (entry (store w) host path
                 <$> zmembers (zset_at (store w) (keyApproved host path)) 0 10), None) w'.
Proof.
  intros Hf Hz Hh.
  assert (∃ cs w', returns (getComments host path) w (Some cs, None) w') as (cs & w' & Hret).
  { unfold getComments. simpl.
    pose proof (conn_Do_store (ZRANGEBYSCORE (keyApproved host path) 0 10) w) as Hs.
    pose proof (conn_Do_reply (ZRANGEBYSCORE (keyApproved host path) 0 10) w) as Hr.
    pose proof (no_faults_tail _ (ZRANGEBYSCORE (keyApproved host path) 0 10) _ Hf) as Hf'.
    rewrite (no_faults_hd _ _ Hf) in Hs, Hr. simpl exec in Hs, Hr.
    set (ids := zmembers (zset_at (store w) (keyApproved host path)) 0 10) in *.
    assert ((conn_Do (ZRANGEBYSCORE (keyApproved host path) 0 10) w).1
              = Reply (RArray (RBulk <$> ids)) ∧
            store (conn_Do (ZRANGEBYSCORE (keyApproved host path) 0 10) w).2 = store w)
      as [Hr' Hs'].
    { rewrite Hr, Hs. unfold ids, zset_at.
      destruct Hz as [->|[z ->]]; [|done]. by rewrite zmembers_empty. }
    destruct (getComments_range_returns host path ids []
                (conn_Do (ZRANGEBYSCORE (keyApproved host path) 0 10) w).2)
      as (cs & w' & Hret).
    { eapply no_faults_le; [|done].
      unfold ids, zmembers. rewrite length_fmap, length_take. lia. }
    { intros id Hid. rewrite Hs'. by apply Hh. }
    exists cs, w'. apply returns_Do. rewrite Hr'. simpl Strings.
    rewrite strings_of_bulk. exact Hret. }
  destruct (wp_getComments host path w _ _ Hret) as [_ Hcs]. simpl in Hcs.
  rewrite Hcs in Hret. by exists w'.
Qed.

(** *** The order of a sorted set *)

#[local] Instance zle_trans : Transitive zle.
Proof.
  intros [m1 s1] [m2 s2] [m3 s3]. unfold zle. simpl.
  intros [H1|[H1 L1]] [H2|[H2 L2]]; try (left; lia).
  right. split; [lia|]. by etrans.
Qed.

#[local] Instance zle_total : Total zle.
Proof.
  intros [m1 s1] [m2 s2]. unfold zle. simpl.
  destruct (Z.lt_trichotomy s1 s2) as [?|[->|?]]; [by left; left| |by right; left].
  destruct (total String.le m1 m2); [left|right]; by right.
Qed.

Lemma zrange_sorted z : StronglySorted zle (zrange z).
Proof. apply StronglySorted_merge_sort; apply _. Qed.

Lemma zrange_perm z : zrange z ≡ₚ map_to_list z.
Proof. apply merge_sort_Permutation. Qed.

Lemma elem_of_zrange z m score : (m, score) ∈ zrange z ↔ z !! m = Some score.
Proof. by rewrite zrange_perm, elem_of_map_to_list. Qed.

Lemma StronglySorted_take {A} (R : relation A) n l :
  StronglySorted R l → StronglySorted R (take n l).
Proof.
  intros H. revert n. induction H as [|x l Hl IH Hx]; intros [|n]; simpl; try constructor.
  - apply IH.
  - eapply Forall_forall. intros y Hy. eapply Forall_forall in Hx; [done|].
    by eapply subseteq_take.
Qed.

Lemma sorted_scores l :
  StronglySorted zle l → NoDup l → (∀ m score, (m, score) ∈ l → m = Go.FormatInt score) →
  l.*1 = Go.FormatInt <$> l.*2 ∧ StronglySorted Z.lt l.*2.
Proof.
  induction 1 as [|[m sc] l Hl IH Hx]; intros Hnd Hwf; [by split; [|constructor]|].
  apply NoDup_cons in Hnd as [Hnotin Hnd].
  destruct IH as [IH1 IH2]; [done|by intros ???; apply Hwf; right|].
  rewrite !fmap_cons. split.
  - rewrite IH1. simpl. f_equal. apply Hwf. left.
  - constructor; [done|]. apply Forall_forall. intros sc' Hsc'.
    apply list_elem_of_fmap in Hsc' as ([m' sc''] & -> & Hin). simpl.
    eapply Forall_forall in Hx; [|done]. destruct Hx as [?|[Heq _]]; [done|].
    simpl in Heq. subst sc''. exfalso. apply Hnotin.
    rewrite (Hwf m sc) by left. rewrite <- (Hwf m' sc) by by right. done.
Qed.

(** Under [zset_wf] the range query lists ids in ascending order. *)
Lemma zmembers_ascending z n :
  zset_wf z →
  ∃ ids, StronglySorted Z.lt ids ∧
         (∀ id, id ∈ ids ↔ Go.FormatInt id ∈ dom z) ∧
         zmembers z 0 n = Go.FormatInt <$> take n ids.
Proof.
  intros Hwf. exists (zrange z).*2.
  destruct (sorted_scores (zrange z)) as [H1 H2].
  { apply zrange_sorted. }
  { rewrite zrange_perm. apply NoDup_map_to_list. }
  { intros m sc Hin. apply Hwf. by apply elem_of_zrange. }
  split; [done|]. split.
  - intros id. rewrite list_elem_of_fmap, elem_of_dom. split.
    + intros ([m sc] & -> & Hin). apply elem_of_zrange in Hin. simpl.
      rewrite <- (Hwf _ _ Hin). by eexists.
    + intros [sc Hsc]. exists (Go.FormatInt id, sc). apply elem_of_zrange in Hsc as Hin.
      split; [|done]. simpl. apply FormatInt_inj. by apply (Hwf _ _ Hsc).
  - unfold zmembers. rewrite drop_0, fmap_take, H1. symmetry. apply fmap_take.
Qed.

(** *** Writes *)

Lemma exec_ZADD_cases k score m s :
  (∀ k', k' ≠ k → (exec (ZADD k score m) s).2 !! k' = s !! k') ∧
  match Bool (exec (ZADD k score m) s).1 with
  | (true, None) =>
      (m ∉ dom (zset_at s k)) ∧
      dom (zset_at (exec (ZADD k score m) s).2 k) = dom (zset_at s k) ∪ {[m]}
  | (false, None) =>
      m ∈ dom (zset_at s k) ∧
      dom (zset_at (exec (ZADD k score m) s).2 k) = dom (zset_at s k)
  | (_, Some _) => (exec (ZADD k score m) s).2 = s
  end.
Proof.
  simpl. destruct (s !! k) as [[| |z|]|] eqn:E; simpl;
    (split; [intros; by rewrite ?lookup_insert_ne|]); try done.
  - unfold zset_at. rewrite E, lookup_insert_eq, dom_insert_L.
    case_decide as Hm; simpl; rewrite <- elem_of_dom in Hm; set_solver.
  - unfold zset_at. rewrite E, lookup_insert_eq, dom_singleton_L. set_solver.
Qed.

Lemma exec_HMSET_cases k fields s :
  (∀ k', k' ≠ k → (exec (HMSET k fields) s).2 !! k' = s !! k') ∧
  match String (exec (HMSET k fields) s).1 with
  | (_, Some _) => (exec (HMSET k fields) s).2 = s
  | (ok, None) =>
      ok = "OK" ∧
      ∃ h, (exec (HMSET k fields) s).2 !! k = Some (VHash (hash_set h fields))
  end.
Proof.
  simpl. destruct (s !! k) as [[| | |h]|] eqn:E; simpl;
    (split; [intros; by rewrite ?lookup_insert_ne|]); try done.
  - split; [done|]. exists h. by rewrite lookup_insert_eq.
  - split; [done|]. exists ∅. by rewrite lookup_insert_eq.
Qed.


Lemma wp_saveComment_loop req w :
  wp (saveComment_loop req) (loop_post req w) w.
Proof.
  unfold saveComment_loop.
  apply (wp_Iter _ _ (fun _ w1 =>
    now w <= now w1 ∧
    (∀ t, now w <= t < now w1 →
          Go.FormatInt t ∈ AllIndex (store w) (host req) (path req)) ∧
    (∀ k, k ≠ keyAll (host req) (path req) → store w1 !! k = store w !! k) ∧
    AllIndex (store w1) (host req) (path req) = AllIndex (store w) (host req) (path req)));
    [|by repeat split; [lia|intros; lia..]].
  intros [] w1 (Hnow & Hcoll & Hkeys & Hall).
  unfold saveComment_attempt. simpl bind. apply wp_Now, wp_Do.
  set (c := ZADD (keyAll (host req) (path req)) (now w1) (Go.FormatInt (now w1))).
  pose proof (conn_Do_store c w1) as Hs. pose proof (conn_Do_reply c w1) as Hr.
  destruct (conn_Do_rest c w1) as (Hn & _).
  destruct (exec_ZADD_cases (keyAll (host req) (path req)) (now w1)
              (Go.FormatInt (now w1)) (store w1)) as [Hother Hcase].
  fold c in Hother, Hcase.
  destruct (conn_Do c w1) as [r w2]. cbn [fst snd] in Hs, Hr, Hn |- *.
  destruct (hd false (faults w1)).
  { (* the connection failed *)
    subst r. simpl. apply wp_Log, wp_Ret, wp_Ret. unfold loop_post. simpl.
    rewrite Hs, Hn. repeat split; try done. }
  rewrite <- Hr in Hcase. unfold AllIndex in *.
  destruct (Bool r) as [[] [e|]]; simpl.
  - apply wp_Log, wp_Ret, wp_Ret. unfold loop_post, AllIndex. simpl. rewrite Hs, Hn, Hcase.
    repeat split; try done.
  - destruct Hcase as [Hfresh Hdom]. apply wp_Ret, wp_Ret. unfold loop_post, AllIndex.
    rewrite Hs, Hn. repeat split; try done.
    + intros k Hk. by rewrite Hother, Hkeys.
    + by rewrite <- Hall.
    + by rewrite Hdom, Hall.
  - apply wp_Log, wp_Ret, wp_Ret. unfold loop_post, AllIndex. simpl. rewrite Hs, Hn, Hcase.
    repeat split; try done.
  - destruct Hcase as [Hpresent Hdom]. apply wp_Sleep, wp_Ret. simpl.
    rewrite Hs, Hn. repeat split.
    + lia.
    + intros t Ht. destruct (decide (t = now w1)) as [->|]; [by rewrite <- Hall|].
      apply Hcoll. lia.
    + intros k Hk. by rewrite Hother, Hkeys.
    + by rewrite Hdom.
Qed.

Lemma wp_saveComment req w :
  wp (saveComment req) (save_result req w) w.
Proof.
  unfold saveComment. apply wp_bind. eapply wp_mono; [|apply wp_saveComment_loop].
  intros [id err|id] w1 (Hnow & Hcoll & Hkeys & Hex).
  - destruct Hex as (-> & Herr & Hall). apply wp_Ret. unfold save_result. simpl.
    repeat split; try done; [by intros; apply Hkeys|by rewrite Hall].
  - destruct Hex as (-> & Hfresh & Hall). simpl. apply wp_Do.
    set (c := HMSET (keyComment (host req) (path req) (now w1)) (AddFlat req)).
    pose proof (conn_Do_store c w1) as Hs. pose proof (conn_Do_reply c w1) as Hr.
    destruct (conn_Do_rest c w1) as (Hn & _).
    destruct (exec_HMSET_cases (keyComment (host req) (path req) (now w1)) (AddFlat req)
                (store w1)) as [Hother Hcase].
    fold c in Hother, Hcase.
    assert (∀ s', (∀ k', k' ≠ keyComment (host req) (path req) (now w1) →
                         s' !! k' = store w1 !! k') →
                  AllIndex s' (host req) (path req)
                  = AllIndex (store w) (host req) (path req) ∪ {[Go.FormatInt (now w1)]})
      as Hsame.
    { intros s' Hs'. rewrite <- Hall. unfold AllIndex, zset_at.
      by rewrite Hs' by apply keyAll_ne_keyComment. }
    destruct (conn_Do c w1) as [r w2]. cbn [fst snd] in Hs, Hr, Hn |- *.
    destruct (hd false (faults w1)).
    { subst r. simpl. apply wp_Ret. unfold save_result. simpl. rewrite Hs, Hn.
      repeat split; try done; [by intros; apply Hkeys|]. rewrite Hall. set_solver. }
    rewrite <- Hr in Hcase.
    destruct (String r) as [ok [e|]]; simpl.
    + apply wp_Ret. unfold save_result. simpl. rewrite Hs, Hn, Hcase.
      repeat split; try done; [by intros; apply Hkeys|]. rewrite Hall. set_solver.
    + destruct Hcase as [-> [old Hold]]. rewrite decide_True by done. simpl.
      apply wp_Ret. unfold save_result. simpl. rewrite Hs, Hn.
      repeat split; try done.
      * intros k Hk1 Hk2. by rewrite Hother, Hkeys.
      * rewrite (Hsame _ Hother). set_solver.
      * by apply Hsame.
      * exists old. unfold record_at. by rewrite Hold.
Qed.

Lemma wp_autoApproveComment akismetKey host path id w :
  wp (autoApproveComment akismetKey host path id) (approve_result host path id w) w.
Proof.
  assert (∀ res w', store w' = store w → (res.1 = false) →
                    approve_result host path id w res w') as Hnochange.
  { intros [a e] w' Hw' Ha. simpl in Ha. subst a. unfold approve_result. rewrite Hw'.
    simpl. repeat split; try done; set_solver. }
  unfold autoApproveComment. case_decide.
  { apply wp_Ret. by apply Hnochange. }
  simpl. apply wp_Do.
  pose proof (conn_Do_store (HGETALL (keyComment host path id)) w) as Hs.
  destruct (exec_HGETALL host path id (store w)) as [Hex _].
  rewrite Hex in Hs.
  assert (store (conn_Do (HGETALL (keyComment host path id)) w).2 = store w) as Hw1
    by (rewrite Hs; by destruct (hd _ _)).
  clear Hs Hex. destruct (conn_Do _ w) as [r w1]. cbn [fst snd] in *.
  destruct (StringMap r) as [values [e|]].
  { apply wp_Ret. by apply Hnochange. }
  simpl. apply wp_PostForm.
  destruct (hd PostFailed (akismet w1)) as [| |body]; simpl;
    try (apply wp_Ret; by apply Hnochange).
  destruct (Go.ParseBool body) as [isSpam [e|]]; [apply wp_Ret; by apply Hnochange|].
  destruct isSpam; simpl; [apply wp_Ret; by apply Hnochange|].
  apply wp_Do.
  set (w2 := World (store w1) _ _ _ _ _ _).
  set (c := ZADD (keyApproved host path) id (Go.FormatInt id)).
  pose proof (conn_Do_store c w2) as Hs. pose proof (conn_Do_reply c w2) as Hr.
  destruct (exec_ZADD_cases (keyApproved host path) id (Go.FormatInt id) (store w2))
    as [Hother Hcase].
  fold c in Hother, Hcase. change (store w2) with (store w1) in *. rewrite Hw1 in *.
  destruct (conn_Do c w2) as [r2 w3]. cbn [fst snd] in Hs, Hr |- *.
  destruct (hd false (faults w2)).
  { subst r2. simpl. apply wp_Ret. by apply Hnochange. }
  rewrite <- Hr in Hcase.
  destruct (Bool r2) as [[] [e|]]; simpl;
    try (apply wp_Ret; apply Hnochange; [by rewrite Hs, Hcase|done]);
    apply wp_Ret; unfold approve_result, ApprovedIndex; simpl; rewrite Hs;
    destruct Hcase as [Hm Hdom]; rewrite Hdom;
    repeat split; try done; set_solver.
Qed.

(** *** The write path of the handler, call by call *)

Section handler.
Variable url_Parse : string → URL + error.
Variable net_ResolveTCPAddr : string → string + error.
Variable akismetKey : string.

Lemma commentHandler_saved r req w0 w1 w2 w3 id approved err :
  Method r = "POST" → cleanCommentSubmitRequest url_Parse net_ResolveTCPAddr r = inl req →
  returns (autoEnabled (host req) (path req)) w0 (true, None) w1 →
  returns (saveComment req) w1 (id, None) w2 →
  returns (autoApproveComment akismetKey (host req) (path req) id) w2 (approved, err) w3 →
  ∃ w4, returns (commentHandler url_Parse net_ResolveTCPAddr akismetKey r) w0
          (ParseForm_written r ++ [http_Redirect (Permalink req) StatusFound]) w4 ∧
        store w4 = store w3 ∧
        logs w4 = logs w3 ++ match err with Some e => [Println_err e] | None => [] end
                          ++ [Printf_new approved (host req) (path req) id].
Proof.
  intros Hm Hc H1 H2 H3. unfold commentHandler.
  rewrite decide_False by (rewrite Hm; done). rewrite decide_True by done. rewrite Hc.
  destruct err as [e|].
  - eexists. split; [|split].
    + eapply returns_bind; [exact H1|]. cbv beta match delta [negb].
      eapply returns_bind; [exact H2|]. cbv beta match.
      eapply returns_bind; [exact H3|]. simpl.
      apply returns_Log, returns_Log, returns_Ret_same.
    + done.
    + simpl. by rewrite <- app_assoc.
  - eexists. split; [|split].
    + eapply returns_bind; [exact H1|]. cbv beta match delta [negb].
      eapply returns_bind; [exact H2|]. cbv beta match.
      eapply returns_bind; [exact H3|]. simpl.
      apply returns_Log, returns_Ret_same.
    + done.
    + done.
Qed.

Lemma commentHandler_save_failed r req w0 w1 w2 id e :
  Method r = "POST" → cleanCommentSubmitRequest url_Parse net_ResolveTCPAddr r = inl req →
  returns (autoEnabled (host req) (path req)) w0 (true, None) w1 →
  returns (saveComment req) w1 (id, Some e) w2 →
  ∃ w3, returns (commentHandler url_Parse net_ResolveTCPAddr akismetKey r) w0
          (ParseForm_written r ++ [http_Error "backend error" StatusInternalServerError]) w3 ∧
        store w3 = store w2.
Proof.
  intros Hm Hc H1 H2. unfold commentHandler.
  rewrite decide_False by (rewrite Hm; done). rewrite decide_True by done. rewrite Hc.
  eexists. split.
  - eapply returns_bind; [exact H1|]. cbv beta match delta [negb].
    eapply returns_bind; [exact H2|]. simpl.
    apply returns_Log, returns_Ret_same.
  - done.
Qed.

End handler.

Lemma exec_Fail c s e : (exec c s).1 = Fail e → (exec c s).2 = s.
Proof. destruct c; simpl; repeat case_match; simpl; done. Qed.

Lemma conn_Do_Fail c w e : (conn_Do c w).1 = Fail e → store (conn_Do c w).2 = store w.
Proof.
  rewrite conn_Do_reply, conn_Do_store. destruct (hd false (faults w)); [done|].
  apply exec_Fail.
Qed.


Lemma getComments_empty host path w :
  hd false (faults w) = false →
  holds_zset (store w) (keyApproved host path) →
  ApprovedIndex (store w) host path = ∅ →
  ∃ w', returns (getComments host path) w (Some [], None) w'.
Proof.
  intros Hf Hz He. eexists. unfold getComments. simpl. apply returns_Do.
  rewrite conn_Do_ok by done. simpl. unfold ApprovedIndex, zset_at in He.
  destruct Hz as [Hz|[z Hz]]; rewrite Hz in *; simpl.
  - apply returns_Ret_same.
  - apply dom_empty_inv_L in He. subst z. rewrite zmembers_empty. simpl.
    apply returns_Ret_same.
Qed.

Lemma respects_start url_Parse net_ResolveTCPAddr akismetKey j :
  respects allowed (start url_Parse net_ResolveTCPAddr akismetKey j) (start_post j) [].
Proof.
  destruct j as [r|req]; unfold start; apply respects_bind.
  - eapply respects_mono; [|apply respects_commentHandler]. done.
  - eapply respects_mono; [|apply respects_saveComment]. done.
Qed.

Lemma approved_subset_world0 : approved_subset (store Scenario.world0).
Proof.
  intros host path. unfold ApprovedIndex, AllIndex, zset_at. simpl.
  destruct (decide (keyAutoEnable = keyApproved host path)) as [<-|Hne].
  - by rewrite lookup_singleton_eq.
  - by rewrite lookup_singleton_ne.
Qed.

(** The indexes stay as main.go writes them: in every state of the server,
    each member of a sorted set is the decimal text of its score, if that was
    so at the start. *)
Lemma scores_wf_reachable url_Parse net_ResolveTCPAddr akismetKey w0 st :
  scores_wf (store w0) →
  reachable (start url_Parse net_ResolveTCPAddr akismetKey) w0 st →
  scores_wf (store (env st)).
Proof.
  intros H0 Hreach.
  pose proof (pool_inv_reachable _ start_post w0
                (respects_start url_Parse net_ResolveTCPAddr akismetKey) st Hreach) as Hinv.
  by apply Hinv.
Qed.

(** ** The claims *)

(** C1. In every state of a server started from a store where each approved
    index is within its all index -- requests served and allocator calls
    running side by side, interleaved command by command, connections failing
    at will -- each approved index is within its all index; and no step
    takes an id out of an all index, or puts into an approved index an id that
    is not, before that step, in the all index of the same thread. *)
Theorem approved_subset_invariant url_Parse net_ResolveTCPAddr akismetKey w0 st :
  approved_subset (store w0) →
  reachable (start url_Parse net_ResolveTCPAddr akismetKey) w0 st →
  approved_subset (store (env st)) ∧
  ∀ m host path,
    AllIndex (store (env st)) host path
      ⊆ AllIndex (store (env (sys_step (start url_Parse net_ResolveTCPAddr akismetKey) st m)))
                 host path ∧
    ∀ id, id ∈ ApprovedIndex
                 (store (env (sys_step (start url_Parse net_ResolveTCPAddr akismetKey) st m)))
                 host path →
          id ∉ ApprovedIndex (store (env st)) host path →
          id ∈ AllIndex (store (env st)) host path.
Proof.
  intros H0 Hreach.
  pose proof (pool_inv_reachable _ start_post w0
                (respects_start url_Parse net_ResolveTCPAddr akismetKey) st Hreach) as Hinv.
  split; [by apply Hinv|]. intros m host path. split.
  - by eapply AllIndex_step.
  - intros id Hid Hnot.
    by destruct (ApprovedIndex_step _ _ _ st m host path id Hinv Hid).
Qed.

Lemma approved_subset_invariant_witness :
  approved_subset
    (store (env (sys_run (start Scenario.plain_Parse Scenario.plain_Resolve "secret")
                   (State [] Scenario.world0)
                   (Spawn (Serve Scenario.post) :: repeat (Run 0) 12)))).
Proof.
  apply (approved_subset_invariant Scenario.plain_Parse Scenario.plain_Resolve "secret"
           Scenario.world0).
  - exact approved_subset_world0.
  - exists (Spawn (Serve Scenario.post) :: repeat (Run 0) 12). reflexivity.
Defined.

Example server_run_approves :
  ApprovedIndex
    (store (env (sys_run (start Scenario.plain_Parse Scenario.plain_Resolve "secret")
                   (State [] Scenario.world0)
                   (Spawn (Serve Scenario.post) :: repeat (Run 0) 12))))
    "example.com" "/post" = {[ "1700000000" ]}.
Proof. vm_compute. reflexivity. Qed.



(** C3. [autoEnabled], when its reads reach the store: a flag that is present
    is returned as it is and nothing is written; with no flag and the host in
    the auto-enable set the answer is true whether or not the write of the
    flag succeeds; with no flag and the host not in the set the answer is
    false and nothing is written. *)
Theorem autoEnabled_resolution host path w :
  hd false (faults w) = false →
  (∀ v b, store w !! keyEnabled host path = Some (VString v) →
          Go.ParseBool v = (b, None) →
          ∃ w', returns (autoEnabled host path) w (b, None) w' ∧
                store w' = store w ∧
                trace w' = trace w ++ [(GET (keyEnabled host path), Reply (RBulk v))]) ∧
  (store w !! keyEnabled host path = None → hd false (tail (faults w)) = false →
     (∀ members, store w !! keyAutoEnable = Some (VSet members) → host ∈ members →
        ∃ w', returns (autoEnabled host path) w (true, None) w' ∧
              store w' = (if hd false (tail (tail (faults w))) then store w
                          else <[keyEnabled host path := VString "true"]> (store w)) ∧
              ∃ r, trace w' = trace w ++
                     [(GET (keyEnabled host path), Reply RNil);
                      (SISMEMBER keyAutoEnable host, Reply (RInt 1));
                      (SET (keyEnabled host path) "true", r)]) ∧
     ((store w !! keyAutoEnable = None ∨
       ∃ members, store w !! keyAutoEnable = Some (VSet members) ∧ host ∉ members) →
        ∃ w', returns (autoEnabled host path) w (false, None) w' ∧
              store w' = store w ∧
              trace w' = trace w ++
                     [(GET (keyEnabled host path), Reply RNil);
                      (SISMEMBER keyAutoEnable host, Reply (RInt 0))])).
Proof.
  intros Hf. split; [|intros Hk Hf'; split].
  - intros v b. by apply autoEnabled_flag_present.
  - intros members. by apply autoEnabled_member.
  - by apply autoEnabled_not_member.
Qed.

Lemma autoEnabled_resolution_witness :
  ∃ w', returns (autoEnabled "example.com" "/post") Scenario.world0 (true, None) w' ∧
        store w' = <["{luit.eu/comments://example.com/post}:enabled" := VString "true"]>
                     (store Scenario.world0).
Proof.
  destruct (autoEnabled_resolution "example.com" "/post" Scenario.world0 eq_refl)
    as [_ H].
  destruct (H eq_refl eq_refl) as [H1 _].
  destruct (H1 {[ "example.com" ]}) as (w' & Hret & Hst & _).
  - reflexivity.
  - apply elem_of_singleton. reflexivity.
  - exists w'. split; [exact Hret | exact Hst].
Defined.


(** C4. Without a classifier credential ([akismetKey] empty)
    [autoApproveComment] is the program that returns [(false, nil)] at once:
    it has no effect to perform, so run from any world it returns
    [approved = false] without error and leaves the world as it was -- no
    store command ([trace]), no classifier request ([posted]), the approved
    index untouched. *)
Theorem autoApproveComment_without_key host path id w :
  autoApproveComment "" host path id = Ret (false, None) ∧
  returns (autoApproveComment "" host path id) w (false, None) w ∧
  (∀ res w', returns (autoApproveComment "" host path id) w res w' →
             res = (false, None) ∧ trace w' = trace w ∧ posted w' = posted w ∧
             ApprovedIndex (store w') host path = ApprovedIndex (store w) host path).
Proof.
  split; [done|]. split; [by apply returns_Ret|].
  by intros res w' [-> ->]%returns_Ret.
Qed.


(** C5. A submission whose comment was stored ([saveComment] returned [id]
    without error) is not failed by an error of [autoApproveComment]: the
    handler still ends with the redirect to the permalink, the store is as
    [saveComment] left it -- the id in the all index, the record in place --
    and the id has not been promoted. *)
Theorem classification_error_is_not_fatal url_Parse net_ResolveTCPAddr akismetKey
    r req w0 w1 w2 w3 id approved e :
  Method r = "POST" →
  cleanCommentSubmitRequest url_Parse net_ResolveTCPAddr r = inl req →
  returns (autoEnabled (host req) (path req)) w0 (true, None) w1 →
  returns (saveComment req) w1 (id, None) w2 →
  returns (autoApproveComment akismetKey (host req) (path req) id) w2 (approved, Some e) w3 →
  ∃ w4, returns (commentHandler url_Parse net_ResolveTCPAddr akismetKey r) w0
          (ParseForm_written r ++ [http_Redirect (Permalink req) StatusFound]) w4 ∧
        approved = false ∧
        store w4 = store w2 ∧
        Go.FormatInt id ∈ AllIndex (store w4) (host req) (path req) ∧
        (∃ old, record_at (store w4) (host req) (path req) id
                = Some (hash_set old (AddFlat req))) ∧
        ApprovedIndex (store w4) (host req) (path req)
          = ApprovedIndex (store w2) (host req) (path req).
Proof.
  intros Hm Hc H1 H2 H3.
  destruct (commentHandler_saved url_Parse net_ResolveTCPAddr akismetKey
              r req w0 w1 w2 w3 id approved (Some e) Hm Hc H1 H2 H3) as (w4 & Hret & Hst & _).
  destruct (wp_autoApproveComment akismetKey _ _ _ _ _ _ H3) as (_ & _ & _ & Herr & _).
  destruct Herr as [Happroved Hw3]; [done|]. simpl in Happroved.
  destruct (wp_saveComment _ _ _ _ H2) as (_ & _ & _ & _ & _ & Hok).
  destruct (Hok eq_refl) as (_ & Hall & old & Hrec). simpl in *.
  exists w4. rewrite Hst, Hw3. repeat split; try done.
  - rewrite Hall. set_solver.
  - by exists old.
Qed.

Lemma classification_error_is_not_fatal_witness :
  ∃ w4, returns (Scenario.handler Scenario.post) Scenario.bad_classifier
          ([] ++ [http_Redirect "https://example.com/post" 302]) w4 ∧
        false = false ∧
        store w4 = store Scenario.bad_saved ∧
        "1700000000" ∈ AllIndex (store w4) "example.com" "/post" ∧
        (∃ old, record_at (store w4) "example.com" "/post" 1700000000
                = Some (hash_set old (AddFlat Scenario.req))) ∧
        ApprovedIndex (store w4) "example.com" "/post"
          = ApprovedIndex (store Scenario.bad_saved) "example.com" "/post".
Proof.
  apply (classification_error_is_not_fatal
           Scenario.plain_Parse Scenario.plain_Resolve "secret"
           Scenario.post Scenario.req Scenario.bad_classifier
           Scenario.bad_enabled Scenario.bad_saved Scenario.bad_classified
           1700000000 false
           (ErrorString "unexpected return value from akismet: maybe")).
  - reflexivity.
  - reflexivity.
  - exists 3%nat. vm_compute. reflexivity.
  - exists 5%nat. vm_compute. reflexivity.
  - exists 3%nat. vm_compute. reflexivity.
Defined.

(** C6 as stated fails: with id 5 approved and no record stored for it,
    [getComments] returns without error and lists a comment with id "5" and
    empty author and content. *)
Lemma getComments_missing_record_no_error :
  "5" ∈ ApprovedIndex (store Scenario.orphan) "example.com" "/post" ∧
  store Scenario.orphan !! keyComment "example.com" "/post" 5 = None ∧
  ∃ w', returns (getComments "example.com" "/post") Scenario.orphan
          (Some [comment.mk "5" "" ""], None) w'.
Proof.
  split; [|split].
  - unfold ApprovedIndex, zset_at. simpl. rewrite lookup_singleton_eq.
    rewrite dom_singleton_L. by apply elem_of_singleton.
  - reflexivity.
  - eexists. exists 3%nat. reflexivity.
Qed.

Lemma entry_IDs s host path (ids : list string) :
  comment.ID <$> (entry s host path <$> ids) = ids.
Proof. induction ids as [|id ids IH]; [done|]. rewrite !fmap_cons, IH. done. Qed.

(** C6, amended.  When the store commands of [getComments] succeed (no
    connection failure, no key of a wrong type), an approved id among the
    first ten whose record is missing does not make the call fail: the call
    returns a listing with one entry per id, and the entry of that id carries
    the id with empty author and content. *)
Theorem getComments_missing_record host path w id :
  no_faults 11 w →
  holds_zset (store w) (keyApproved host path) →
  (∀ id', id' ∈ zmembers (zset_at (store w) (keyApproved host path)) 0 10 →
          holds_hash (store w) (keyComment host path (Go.ParseInt id').1)) →
  id ∈ zmembers (zset_at (store w) (keyApproved host path)) 0 10 →
  store w !! keyComment host path (Go.ParseInt id).1 = None →
  ∃ cs w', returns (getComments host path) w (Some cs, None) w' ∧
           comment.ID <$> cs = zmembers (zset_at (store w) (keyApproved host path)) 0 10 ∧
           comment.mk id "" "" ∈ cs.
Proof.
  intros Hf Hz Hh Hid Hmissing.
  destruct (getComments_returns host path w Hf Hz Hh) as [w' Hret].
  eexists _, w'. split; [exact Hret|]. split.
  - apply entry_IDs.
  - apply list_elem_of_fmap. exists id. split; [|done].
    unfold entry, record_at. by rewrite Hmissing.
Qed.

Lemma getComments_missing_record_witness :
  ∃ cs w', returns (getComments "example.com" "/post") Scenario.orphan (Some cs, None) w' ∧
           comment.ID <$> cs = ["5"] ∧ comment.mk "5" "" "" ∈ cs.
Proof.
  apply (getComments_missing_record "example.com" "/post" Scenario.orphan "5").
  - intros b Hb. vm_compute in Hb. apply elem_of_nil in Hb. destruct Hb.
  - right. eexists. reflexivity.
  - intros id' Hid'. vm_compute in Hid'. apply list_elem_of_singleton in Hid'. subst id'.
    left. reflexivity.
  - vm_compute. apply list_elem_of_here.
  - reflexivity.
Defined.

(** C7. Whenever [getComments] returns without error it returns a (non-nil)
    slice of at most ten entries; the index being as main.go writes it (each
    member the decimal text of its score), the ids of the entries are the
    first ten approved ids of the thread in ascending order.  A result is
    either such a listing or a nil slice with an error.  The call does return
    the listing when its eleven commands reach the store and the keys hold
    what main.go puts there.  On a thread with no approved comment, if the
    range query reaches the store, the result is the empty slice and no
    error. *)
Theorem getComments_listing host path w :
  (∀ res w', returns (getComments host path) w res w' →
     match res with
     | (Some cs, None) =>
         (length cs <= 10)%nat ∧
         (zset_wf (zset_at (store w) (keyApproved host path)) →
          ∃ ids, StronglySorted Z.lt ids ∧
                 (∀ id, id ∈ ids ↔ Go.FormatInt id ∈ ApprovedIndex (store w) host path) ∧
                 comment.ID <$> cs = Go.FormatInt <$> take 10 ids)
     | (None, Some _) => True
     | _ => False
     end) ∧
  (no_faults 11 w →
   holds_zset (store w) (keyApproved host path) →
   (∀ id, id ∈ zmembers (zset_at (store w) (keyApproved host path)) 0 10 →
          holds_hash (store w) (keyComment host path (Go.ParseInt id).1)) →
   ∃ w', returns (getComments host path) w
           (Some (entry (store w) host path
                  <$> zmembers (zset_at (store w) (keyApproved host path)) 0 10), None) w') ∧
  (hd false (faults w) = false →
   holds_zset (store w) (keyApproved host path) →
   ApprovedIndex (store w) host path = ∅ →
   ∃ w', returns (getComments host path) w (Some [], None) w').
Proof.
  split; [|split; [apply getComments_returns|apply getComments_empty]].
  intros [[cs|] [e|]] w' Hret; destruct (wp_getComments host path w _ _ Hret) as [_ Hcs];
    try done.
  simpl in Hcs. subst cs. split.
  - unfold zmembers. rewrite !length_fmap, length_take. lia.
  - intros Hwf. destruct (zmembers_ascending _ 10 Hwf) as (ids & Hsorted & Hiff & Hids).
    exists ids. split; [done|]. split; [done|]. by rewrite entry_IDs.
Qed.

Lemma getComments_listing_witness :
  ∃ ids, StronglySorted Z.lt ids ∧
         (∀ id, id ∈ ids ↔
                Go.FormatInt id ∈ ApprovedIndex (store Scenario.two_approved)
                                                "example.com" "/post") ∧
         ["1700000005"; "1700000007"] = Go.FormatInt <$> take 10 ids.
Proof.
  destruct (getComments_listing "example.com" "/post" Scenario.two_approved) as [H _].
  assert (∃ w', returns (getComments "example.com" "/post") Scenario.two_approved
                  (Some [comment.mk "1700000005" "a" "first";
                         comment.mk "1700000007" "b" "second"], None) w') as [w' Hret].
  { eexists. exists 4%nat. vm_compute. reflexivity. }
  destruct (H _ _ Hret) as [_ Hsorted]. apply Hsorted.
  assert (zset_at (store Scenario.two_approved) (keyApproved "example.com" "/post")
          = {[ "1700000007" := 1700000007; "1700000005" := 1700000005 ]}) as ->
    by reflexivity.
  intros m sc [[<- <-]|[_ [<- <-]%lookup_singleton_Some]]%lookup_insert_Some; reflexivity.
Defined.



(** The read path of [commentHandler] sends its range query for whatever host
    [url.Parse] returned, the empty host included... *)
Lemma commentHandler_GET_reads url_Parse resolve key r u :
  Method r = "GET" → url_Parse (FormValue r "url") = inl u →
  ∃ k, commentHandler url_Parse resolve key r
       = Do (ZRANGEBYSCORE (keyApproved (Host u) (Path u)) 0 10) k.
Proof.
  intros Hm Hu. unfold commentHandler. rewrite decide_True by done. rewrite Hu.
  unfold getComments. simpl. by eexists.
Qed.

(** ... while the write path turns an empty host down before any effect. *)
Lemma commentHandler_POST_rejects_empty_host url_Parse resolve key r u :
  Method r = "POST" → url_Parse (FormValue r "url") = inl u → Host u = "" →
  ∃ w, commentHandler url_Parse resolve key r
       = Ret (w ++ [http_Error "bad url value" StatusBadRequest]).
Proof.
  intros Hm Hu Hh. unfold commentHandler, cleanCommentSubmitRequest.
  rewrite Hm, Hu, Hh. simpl. by eexists.
Qed.

(** A host-less URL names the same keys as a thread with a host. *)
Example keyApproved_alias :
  keyApproved "" "example.com/post" = keyApproved "example.com" "/post".
Proof. reflexivity. Qed.

(** C9, at the request [GET /comments/?url=/post]: the URL has no host, yet
    the handler reads the key [{luit.eu/comments:///post}:approved] and
    answers with an (empty) listing instead of rejecting the request. *)
Theorem GET_with_empty_host_reads_store :
  Scenario.plain_Parse "/post" = inl {| Host := ""; Path := "/post" |} ∧
  ∃ w', run 2 (Scenario.handler (Scenario.get "/post")) Scenario.world0
        = Some ([Header_Set "Content-Type" "application/json"; Encode (Some [])], w') ∧
        trace w' = [(ZRANGEBYSCORE "{luit.eu/comments:///post}:approved" 0 10,
                     Reply (RArray []))].
Proof. split; [reflexivity|]. eexists. split; reflexivity. Qed.

(** C10. When the loop of [saveComment] has added [id] to the all index and
    the [HMSET] of the record then comes back with an error, [saveComment]
    returns that error, the id stays in the all index (it was not there
    before and nothing takes it out), the key of the record is as it was
    (no record is written), and the handler answers "backend error". *)
Theorem saveComment_write_failure req w id w1 e :
  returns (saveComment_loop req) w (Break id) w1 →
  (conn_Do (HMSET (keyComment (host req) (path req) id) (AddFlat req)) w1).1 = Fail e →
  ∃ w2, returns (saveComment req) w (id, Some e) w2 ∧
        (Go.FormatInt id ∉ AllIndex (store w) (host req) (path req)) ∧
        Go.FormatInt id ∈ AllIndex (store w2) (host req) (path req) ∧
        store w2 !! keyComment (host req) (path req) id
          = store w !! keyComment (host req) (path req) id ∧
        ∀ url_Parse net_ResolveTCPAddr akismetKey r w0,
          Method r = "POST" →
          cleanCommentSubmitRequest url_Parse net_ResolveTCPAddr r = inl req →
          returns (autoEnabled (host req) (path req)) w0 (true, None) w →
          ∃ w3, returns (commentHandler url_Parse net_ResolveTCPAddr akismetKey r) w0
                  (ParseForm_written r
                   ++ [http_Error "backend error" StatusInternalServerError]) w3 ∧
                store w3 = store w2.
Proof.
  intros Hloop Hfail.
  destruct (wp_saveComment_loop req w _ _ Hloop) as (_ & _ & Hkeys & _ & Hfresh & Hall).
  set (c := HMSET (keyComment (host req) (path req) id) (AddFlat req)) in *.
  assert (returns (saveComment req) w (id, Some e) (conn_Do c w1).2) as Hret.
  { unfold saveComment. eapply returns_bind; [exact Hloop|]. simpl. fold c.
    apply returns_Do. rewrite Hfail. simpl. apply returns_Ret_same. }
  exists (conn_Do c w1).2. rewrite (conn_Do_Fail c w1 e Hfail).
  split; [done|]. split; [done|]. split; [|split].
  - rewrite Hall. set_solver.
  - apply Hkeys. intros Heq. by apply eq_sym, keyAll_ne_keyComment in Heq.
  - intros url_Parse net_ResolveTCPAddr akismetKey r w0 Hm Hc Hen.
    destruct (commentHandler_save_failed url_Parse net_ResolveTCPAddr akismetKey
                r req w0 w (conn_Do c w1).2 id e Hm Hc Hen Hret) as (w3 & H3 & Hst).
    exists w3. split; [done|]. by rewrite Hst, (conn_Do_Fail c w1 e Hfail).
Qed.

Lemma saveComment_write_failure_witness :
  ∃ w2, returns (saveComment Scenario.req) Scenario.write_fails_enabled
          (1700000000, Some ConnError) w2 ∧
        ("1700000000" ∉ AllIndex (store Scenario.write_fails_enabled) "example.com" "/post") ∧
        "1700000000" ∈ AllIndex (store w2) "example.com" "/post" ∧
        store w2 !! keyComment "example.com" "/post" 1700000000 = None.
Proof.
  destruct (saveComment_write_failure Scenario.req Scenario.write_fails_enabled
              1700000000 Scenario.write_fails_added ConnError)
    as (w2 & H1 & H2 & H3 & H4 & _).
  - exists 3%nat. vm_compute. reflexivity.
  - vm_compute. reflexivity.
  - exists w2. split; [exact H1|]. split; [exact H2|]. split; [exact H3|].
    eapply eq_trans; [exact H4 | reflexivity].
Defined.
